(** * Moto.it report scraper: the extraction core of [motoit_report_gui.py]

    A shallow embedding of the listing-text extractors ([parse_price],
    [extract_year_from_text]), of the pagination discovery
    ([discover_pages]) and of the deduplicate-and-sort step of [run_scrape],
    with the properties the specification states about them.

    Python [str] values are lists of Unicode code points.  The regular
    expressions of the module are written as abstract syntax and run by a
    backtracking matcher with the semantics of Python's [re]: ordered
    alternation, greedy repetition, left-most match.  The character tables
    of the interpreter are written out for Basic Latin, the Latin-1
    Supplement and the euro sign; beyond these they are a parameter of the
    development (which characters are alphanumeric, decimal digits, case
    variants of a letter). *)

From Stdlib Require Import String Ascii.
From Stdlib Require Import ZArith List Bool Lia.
From Stdlib Require Import Sorted Permutation DecimalN.
Import ListNotations.
Open Scope Z_scope.

(** ** Text *)

(** A character is a code point; a [str] is the list of its code points. *)
Abbreviation char := Z (only parsing).
Abbreviation text := (list Z) (only parsing).

(** Code points of the UTF-8 encoded literal [s]: the way a source literal
    such as ["12.500 €"] denotes a [str]. *)
Fixpoint utf8_decode (bs : list Z) : text :=
  match bs with
  | [] => []
  | b :: r =>
      if b <? 128 then b :: utf8_decode r
      else if b <? 224 then
        match r with
        | b1 :: r1 => ((b - 192) * 64 + (b1 - 128)) :: utf8_decode r1
        | [] => []
        end
      else if b <? 240 then
        match r with
        | b1 :: b2 :: r2 =>
            ((b - 224) * 4096 + (b1 - 128) * 64 + (b2 - 128)) :: utf8_decode r2
        | _ => []
        end
      else
        match r with
        | b1 :: b2 :: b3 :: r3 =>
            ((b - 240) * 262144 + (b1 - 128) * 4096 + (b2 - 128) * 64 + (b3 - 128))
              :: utf8_decode r3
        | _ => []
        end
  end.

Definition str (s : string) : text :=
  utf8_decode (map (fun a => Z.of_nat (nat_of_ascii a)) (list_ascii_of_string s)).

Definition len (s : text) : Z := Z.of_nat (length s).

(** [s[lo:hi]] for [0 <= lo] and [0 <= hi]. *)
Definition slice (s : text) (lo hi : Z) : text :=
  firstn (Z.to_nat (hi - lo)) (skipn (Z.to_nat lo) s).

Definition between (lo hi c : Z) : bool := (lo <=? c) && (c <=? hi).

(** The characters whose classification is written out below: U+0000 to
    U+00FF and the euro sign. *)
Definition known (c : char) : bool := (c <? 256) || (c =? 8364).

(** The interpreter's character tables for all other characters. *)
Record Unicode := {
  (** [str.isalnum] on a code point *)
  uni_alnum : char -> bool;
  (** the value of a decimal digit (category Nd) *)
  uni_decimal : char -> option Z;
  (** [uni_caseless p c]: under [re.IGNORECASE] the pattern letter [p]
      (Basic Latin) matches the character [c] *)
  uni_caseless : char -> char -> bool
}.

(** [\s], [str.isspace] *)
Definition is_space (c : char) : bool :=
  between 9 13 c || between 28 32 c || (c =? 133) || (c =? 160)
  || (c =? 5760) || between 8192 8202 c || (c =? 8232) || (c =? 8233)
  || (c =? 8239) || (c =? 8287) || (c =? 12288).

(** What the development uses of the tables: a decimal digit is
    alphanumeric, white space is not. *)
Record UnicodeLaws (U : Unicode) : Prop := {
  decimal_alnum : forall c v, uni_decimal U c = Some v -> uni_alnum U c = true;
  space_not_alnum : forall c, is_space c = true -> uni_alnum U c = false
}.

(** Tables with no letter, digit or case variant among the other
    characters. *)
Definition latin1_only : Unicode :=
  {| uni_alnum := fun _ => false;
     uni_decimal := fun _ => None;
     uni_caseless := fun _ _ => false |}.

(** ** Exceptions *)

Inductive exn :=
| ValueError
| HTTPError (status_code : option Z)
| ConnectionError
| Timeout
| OverflowError.

Inductive result (A : Type) :=
| Ok (a : A)
| Raise (e : exn).
Arguments Ok {A} a.
Arguments Raise {A} e.

Definition bind {A B} (r : result A) (f : A -> result B) : result B :=
  match r with
  | Ok a => f a
  | Raise e => Raise e
  end.

Notation "x <- c ;; k" := (bind c (fun x => k))
  (at level 61, c at next level, right associativity).

(** ** Regular expressions *)

Module Re.

Inductive regex :=
| Eps
| Chr (p : char -> bool)           (* a literal, a class, [\d], [\s] *)
| Seq (a b : regex)
| Alt (a b : regex)                (* [a|b], left first *)
| Star (a : regex)                 (* [a*], greedy *)
| Bnd (w : char -> bool)           (* [\b] for the word characters [w] *)
| Bol                              (* [^] *)
| Eol                              (* [$] *)
| Grp (i : nat) (a : regex).       (* capturing group number [i] *)

Definition Opt (a : regex) : regex := Alt a Eps.       (* [a?] *)
Definition Plus (a : regex) : regex := Seq a (Star a). (* [a+] *)
Definition Lit (c : char) : regex := Chr (Z.eqb c).

Fixpoint Cat (rs : list regex) : regex :=
  match rs with
  | [] => Eps
  | [r] => r
  | r :: rs' => Seq r (Cat rs')
  end.

Fixpoint Any (rs : list regex) : regex :=
  match rs with
  | [] => Chr (fun _ => false)
  | [r] => r
  | r :: rs' => Alt r (Any rs')
  end.

(** A position in the subject: the characters before it, nearest first,
    and the characters from it on. *)
Definition cursor := (text * text)%type.
Definition pos (c : cursor) : nat := length (fst c).

(** Group number, start and end of its last capture. *)
Definition captures := list (nat * (nat * nat)).

Definition is_word_at (w : char -> bool) (s : text) : bool :=
  match s with
  | [] => false
  | x :: _ => w x
  end.

Definition at_boundary (w : char -> bool) (c : cursor) : bool :=
  xorb (is_word_at w (fst c)) (is_word_at w (snd c)).

Definition at_end (c : cursor) : bool :=
  match snd c with
  | [] => true
  | [x] => x =? 10
  | _ => false
  end.

(** The backtracking matcher, in continuation-passing style: a matcher
    for [r] takes the position, the captures so far and what is to be
    matched after [r]; when that fails, the next way of matching [r] is
    tried. *)
Definition matcher (R : Type) :=
  cursor -> captures -> (cursor -> captures -> option R) -> option R.

(** [a*] with at most [n] rounds, each of which has to consume something. *)
Fixpoint star_loop {R : Type} (body : matcher R)
    (k : cursor -> captures -> option R) (n : nat) (c : cursor) (g : captures)
    {struct n} : option R :=
  match n with
  | O => k c g
  | S n' =>
      match body c g (fun c1 g1 =>
               if Nat.ltb (length (snd c1)) (length (snd c))
               then star_loop body k n' c1 g1 else None) with
      | Some v => Some v
      | None => k c g
      end
  end.

Fixpoint run {R : Type} (r : regex) {struct r} : matcher R :=
  fun c g k =>
  match r with
  | Eps => k c g
  | Chr p =>
      match snd c with
      | x :: s => if p x then k (x :: fst c, s) g else None
      | [] => None
      end
  | Seq a b => run a c g (fun c1 g1 => run b c1 g1 k)
  | Alt a b =>
      match run a c g k with
      | Some v => Some v
      | None => run b c g k
      end
  | Star a => star_loop (run a) k (length (snd c)) c g
  | Bnd w => if at_boundary w c then k c g else None
  | Bol => match fst c with [] => k c g | _ :: _ => None end
  | Eol => if at_end c then k c g else None
  | Grp i a =>
      run a c g (fun c1 g1 => k c1 ((i, (pos c, pos c1)) :: g1))
  end.

(** A match object: [m.span()] and the groups. *)
Record rmatch := { m_start : nat; m_end : nat; m_groups : captures }.

Definition match_at (r : regex) (c : cursor) : option rmatch :=
  run r c [] (fun c1 g1 =>
    Some {| m_start := pos c; m_end := pos c1; m_groups := g1 |}).

(** [pattern.search(s)]: the match at the left-most position that has one. *)
Fixpoint search_from (r : regex) (l s : text) {struct s} : option rmatch :=
  match match_at r (l, s) with
  | Some m => Some m
  | None =>
      match s with
      | [] => None
      | x :: s' => search_from r (x :: l) s'
      end
  end.

Definition search (r : regex) (s : text) : option rmatch := search_from r [] s.

(** [pattern.finditer(s)] for a pattern that matches no empty string: the
    left-most match, then the left-most match from its end on, and so on.
    [skip] counts the characters left of the match found last. *)
Fixpoint finditer_from (r : regex) (skip : nat) (l s : text) {struct s}
    : list rmatch :=
  match s with
  | [] =>
      match skip with
      | O => match match_at r (l, s) with Some m => [m] | None => [] end
      | S _ => []
      end
  | x :: s' =>
      match skip with
      | S k => finditer_from r k (x :: l) s'
      | O =>
          match match_at r (l, s) with
          | Some m => m :: finditer_from r (m_end m - m_start m - 1) (x :: l) s'
          | None => finditer_from r O (x :: l) s'
          end
      end
  end.

Definition finditer (r : regex) (s : text) : list rmatch := finditer_from r O [] s.

Fixpoint lookup (i : nat) (g : captures) : option (nat * nat) :=
  match g with
  | [] => None
  | (j, se) :: g' => if Nat.eqb i j then Some se else lookup i g'
  end.

(** [m.group(i)] of a match in [s], for a group that took part in it. *)
Definition group (s : text) (m : rmatch) (i : nat) : text :=
  match lookup i (m_groups m) with
  | Some (a, b) => firstn (b - a) (skipn a s)
  | None => []
  end.

(** What a match of [r] is: from where, with which captures, to where. *)
Inductive star_den (d : cursor -> captures -> cursor -> captures -> Prop)
    : cursor -> captures -> cursor -> captures -> Prop :=
| star_stop c g : star_den d c g c g
| star_more c g c1 g1 c2 g2 :
    d c g c1 g1 -> star_den d c1 g1 c2 g2 -> star_den d c g c2 g2.

Fixpoint den (r : regex) (c : cursor) (g : captures) (c' : cursor) (g' : captures)
    {struct r} : Prop :=
  match r with
  | Eps => c' = c /\ g' = g
  | Chr p => exists x s, snd c = x :: s /\ p x = true /\ c' = (x :: fst c, s) /\ g' = g
  | Seq a b => exists c1 g1, den a c g c1 g1 /\ den b c1 g1 c' g'
  | Alt a b => den a c g c' g' \/ den b c g c' g'
  | Star a => star_den (den a) c g c' g'
  | Bnd w => at_boundary w c = true /\ c' = c /\ g' = g
  | Bol => fst c = [] /\ c' = c /\ g' = g
  | Eol => at_end c = true /\ c' = c /\ g' = g
  | Grp i a => exists g1, den a c g c' g1 /\ g' = (i, (pos c, pos c')) :: g1
  end.

(** The characters [mid] lie between the positions [c] and [c']. *)
Definition spans (c c' : cursor) (mid : text) : Prop :=
  snd c = mid ++ snd c' /\ fst c' = rev mid ++ fst c.

(** The subject a position belongs to. *)
Definition subject (c : cursor) : text := rev (fst c) ++ snd c.

End Re.

Import Re.

(** ** Characters and numbers, as the interpreter classifies them *)

Section Extractors.

Variable U : Unicode.

(** [\d] and the value of the digit *)
Definition digit_value (c : char) : option Z :=
  if known c then (if between 48 57 c then Some (c - 48) else None)
  else uni_decimal U c.

Definition is_digit (c : char) : bool :=
  match digit_value c with Some _ => true | None => false end.

Definition latin1_alnum (c : char) : bool :=
  between 48 57 c || between 65 90 c || between 97 122 c
  || (c =? 170) || between 178 179 c || (c =? 181) || between 185 186 c
  || between 188 190 c || between 192 214 c || between 216 246 c
  || between 248 255 c.

(** [\w]: alphanumeric or the underscore *)
Definition is_word (c : char) : bool :=
  if known c then latin1_alnum c || (c =? 95) else uni_alnum U c.

Definition is_letter (c : char) : bool := between 65 90 c || between 97 122 c.

Definition lower (c : char) : char := if between 65 90 c then c + 32 else c.

(** A pattern character [p] against [c] under [re.IGNORECASE]. *)
Definition ci_eq (p c : char) : bool :=
  (c =? p)
  || (is_letter p && (if known c then lower c =? lower p else uni_caseless U p c)).

Definition D : regex := Chr is_digit.
Definition Sp : regex := Chr is_space.
Definition B : regex := Bnd is_word.
Definition Str (s : string) : regex := Cat (map Lit (str s)).
Definition StrI (s : string) : regex := Cat (map (fun p => Chr (ci_eq p)) (str s)).

(** [int(s)] for the strings the module passes: decimal digits, and
    possibly other characters strictly inside, on which [int] raises
    [ValueError]; so it does on more digits than the interpreter converts,
    [sys.get_int_max_str_digits()], leading zeros counted.  (A sign,
    underscores and surrounding white space, which [int] accepts, never
    reach it here.) *)
Definition int_max_str_digits : nat := 4300.

Fixpoint digits_value (acc : Z) (s : text) : option Z :=
  match s with
  | [] => Some acc
  | c :: s' =>
      match digit_value c with
      | Some d => digits_value (10 * acc + d) s'
      | None => None
      end
  end.

Definition int (s : text) : result Z :=
  match s with
  | [] => Raise ValueError
  | _ :: _ =>
      match digits_value 0 s with
      | Some v =>
          if (int_max_str_digits <? length s)%nat then Raise ValueError else Ok v
      | None => Raise ValueError
      end
  end.

(** [s.replace(c, empty)] for a one-character [c] *)
Definition remove (c : char) (s : text) : text :=
  filter (fun x => negb (x =? c)) s.

(** [re.sub(r"\s+", " ", s)] *)
Fixpoint collapse_spaces (in_run : bool) (s : text) : text :=
  match s with
  | [] => []
  | c :: s' =>
      if is_space c
      then (if in_run then collapse_spaces true s' else 32 :: collapse_spaces true s')
      else c :: collapse_spaces false s'
  end.

(** ** Config e regex *)

Definition YEAR_MIN : Z := 1990.
Definition YEAR_MAX : Z := 2035.

(** [\b(19\d{2}|20\d{2})\b] *)
Definition YEAR_PAT : regex :=
  Cat [B; Grp 1 (Alt (Cat [Str "19"; D; D]) (Cat [Str "20"; D; D])); B].

(** [\b(0?[1-9]|1[0-2])\s*[/\-]\s*(20\d{2}|19\d{2})\b] *)
Definition DATE_PAT : regex :=
  Cat [B;
       Grp 1 (Alt (Seq (Opt (Lit 48)) (Chr (between 49 57)))
                  (Seq (Lit 49) (Chr (between 48 50))));
       Star Sp;
       Chr (fun c => (c =? 47) || (c =? 45));
       Star Sp;
       Grp 2 (Alt (Cat [Str "20"; D; D]) (Cat [Str "19"; D; D]));
       B].

(** [[\s:;,.|]] *)
Definition label_sep (c : char) : bool :=
  is_space c || (c =? 58) || (c =? 59) || (c =? 44) || (c =? 46) || (c =? 124).

(** [(?:^|[\s:;,.|])(?:anno|immatricolazione|immatricolata|prima immatricolazione|mese\s*/\s*anno)(?:[\s:;,.|]|$)],
    [re.IGNORECASE] *)
Definition LABEL_NEAR_PAT : regex :=
  Cat [Alt Bol (Chr label_sep);
       Any [StrI "anno"; StrI "immatricolazione"; StrI "immatricolata";
            StrI "prima immatricolazione";
            Cat [StrI "mese"; Star Sp; Lit 47; Star Sp; StrI "anno"]];
       Alt (Chr label_sep) Eol].

(** [(?:aggiornato|pubblicato|garanzia|fino al|tagliando|revisione|bollo|promo|copyright|©)],
    [re.IGNORECASE] *)
Definition NEG_CONTEXT_PAT : regex :=
  Any [StrI "aggiornato"; StrI "pubblicato"; StrI "garanzia"; StrI "fino al";
       StrI "tagliando"; StrI "revisione"; StrI "bollo"; StrI "promo";
       StrI "copyright"; StrI "©"].

(** ** Helpers parsing *)

(** [(\d{1,3}(?:[\.\s]\d{3})+|\d+)\s*€] *)
Definition PRICE_PAT : regex :=
  Cat [Grp 1 (Alt (Seq (Seq D (Opt (Seq D (Opt D))))
                       (Plus (Cat [Chr (fun c => (c =? 46) || is_space c); D; D; D])))
                  (Plus D));
       Star Sp;
       Str "€"].

Definition try_except_ValueError {A} (body handler : result A) : result A :=
  match body with
  | Raise ValueError => handler
  | r => r
  end.

Definition parse_price (txt : text) : result (option Z) :=
  match search PRICE_PAT txt with
  | None => Ok None
  | Some m =>
      let raw := remove 32 (remove 46 (group txt m 1)) in
      try_except_ValueError (v <- int raw ;; Ok (Some v)) (Ok None)
  end.

(** ** Estrazione anno robusta *)

Definition in_year_range (y : Z) : bool := (YEAR_MIN <=? y) && (y <=? YEAR_MAX).

Definition found (r : regex) (s : text) : bool :=
  match search r s with Some _ => true | None => false end.

(** [" " + re.sub(r"\s+", " ", txt) + " "] *)
Definition normalize (txt : text) : text :=
  32 :: collapse_spaces false txt ++ [32].

(** Step 1, month/year: the year the shortcut returns, if it does. *)
Definition date_shortcut (txt_norm : text) : result (option Z) :=
  match search DATE_PAT txt_norm with
  | Some m =>
      y <- int (group txt_norm m 2) ;;
      if in_year_range y then Ok (Some y) else Ok None
  | None => Ok None
  end.

(** [txt_norm[max(0, i - 16): min(len(txt_norm), j + 16)]] for [i, j = m.span()] *)
Definition window_of (txt_norm : text) (m : rmatch) : text :=
  let i := Z.of_nat (m_start m) in
  let j := Z.of_nat (m_end m) in
  slice txt_norm (Z.max 0 (i - 16)) (Z.min (len txt_norm) (j + 16)).

(** The candidate, if any, that an in-range year [y] with the text
    [window] around it adds to [cands]. *)
Definition score (y : Z) (window : text) : option (Z * Z) :=
  let label := found LABEL_NEAR_PAT window in
  let neg := found NEG_CONTEXT_PAT window in
  if label && negb neg then
    let extra := if found DATE_PAT window then 1 else 0 in
    Some (y, 10 + extra)
  else if negb label then
    Some (y, if negb neg then 1 else -5)
  else None.

(** The loop of step 2 over the matches of [YEAR_PAT]. *)
Fixpoint collect (txt_norm : text) (ms : list rmatch) (cands : list (Z * Z))
    : result (list (Z * Z)) :=
  match ms with
  | [] => Ok cands
  | m :: ms' =>
      y <- int (group txt_norm m 1) ;;
      if negb (in_year_range y) then collect txt_norm ms' cands
      else
        match score y (window_of txt_norm m) with
        | Some cand => collect txt_norm ms' (cands ++ [cand])
        | None => collect txt_norm ms' cands
        end
  end.

Definition candidates (txt_norm : text) : result (list (Z * Z)) :=
  collect txt_norm (finditer YEAR_PAT txt_norm) [].

(** [lambda t: (t[1], -t[0])] and the order of the keys *)
Definition sort_key (t : Z * Z) : Z * Z := (snd t, - fst t).

Definition key_leb (a b : Z * Z) : bool :=
  (fst a <? fst b) || ((fst a =? fst b) && (snd a <=? snd b)).

(** [list.sort(key=...)] is stable: an element goes after the elements
    whose key is not larger. *)
Fixpoint insert_sorted {A} (key : A -> Z * Z) (x : A) (l : list A) : list A :=
  match l with
  | [] => [x]
  | h :: t =>
      if key_leb (key h) (key x) then h :: insert_sorted key x t
      else x :: l
  end.

Definition sort_by {A} (key : A -> Z * Z) (l : list A) : list A :=
  fold_left (fun acc x => insert_sorted key x acc) l [].

(** The order of the elements by their keys. *)
Definition key_le {A} (key : A -> Z * Z) (a b : A) : Prop :=
  key_leb (key a) (key b) = true.

(** What [extract_year_from_text] does with a non-empty list [cands]. *)
Definition pick (cands : list (Z * Z)) : option Z :=
  match rev (sort_by sort_key cands) with
  | [] => None
  | (best_y, best_score) :: _ =>
      if best_score <=? 1 then None else Some best_y
  end.

Definition extract_year_from_text (txt : text) : result (option Z) :=
  match txt with
  | [] => Ok None
  | _ :: _ =>
      let txt_norm := normalize txt in
      shortcut <- date_shortcut txt_norm ;;
      match shortcut with
      | Some y => Ok (Some y)
      | None =>
          cands <- candidates txt_norm ;;
          match cands with
          | [] => Ok None
          | _ :: _ => Ok (pick cands)
          end
      end
  end.

(** ** What the properties speak of *)

(** The year tokens of a text as [extract_year_from_text] reads them: the
    matches of [YEAR_PAT] in the normalised text, as numbers. *)
Definition year_tokens (txt : text) : list (result Z) :=
  map (fun m => int (group (normalize txt) m 1))
      (finditer YEAR_PAT (normalize txt)).

Definition outside_range (r : result Z) : bool :=
  match r with
  | Ok y => negb (in_year_range y)
  | Raise _ => false
  end.

(** The in-range years of a normalised text, each with the window that
    the loop of step 2 cuts around it. *)
Fixpoint occurrences_of (txt_norm : text) (ms : list rmatch)
    : result (list (Z * list Z)) :=
  match ms with
  | [] => Ok []
  | m :: ms' =>
      y <- int (group txt_norm m 1) ;;
      rest <- occurrences_of txt_norm ms' ;;
      Ok (if in_year_range y then (y, window_of txt_norm m) :: rest else rest)
  end.

Definition occurrences (txt_norm : text) : result (list (Z * list Z)) :=
  occurrences_of txt_norm (finditer YEAR_PAT txt_norm).

(** The years of the month/year patterns of a text, in order. *)
Definition date_years (txt : text) : list (result Z) :=
  map (fun m => int (group (normalize txt) m 2))
      (finditer DATE_PAT (normalize txt)).

Definition labeled (window : text) : bool := found LABEL_NEAR_PAT window.
Definition negative (window : text) : bool := found NEG_CONTEXT_PAT window.

(** The scoring as the specification words it: a window with a label
    term and a negative-context term falls through as unlabeled and is
    scored by the negative-context test. *)
Definition score_as_specified (y : Z) (window : text) : option (Z * Z) :=
  if labeled window && negb (negative window) then
    Some (y, 10 + (if found DATE_PAT window then 1 else 0))
  else
    Some (y, if negb (negative window) then 1 else -5).

Definition option_list {A} (o : option A) : list A :=
  match o with Some a => [a] | None => [] end.

(** The candidates that an occurrence adds. *)
Definition scored (o : Z * list Z) : list (Z * Z) :=
  option_list (score (fst o) (snd o)).

Definition candidates_as_specified (txt_norm : text) : result (list (Z * Z)) :=
  occs <- occurrences txt_norm ;;
  Ok (flat_map (fun o => option_list (score_as_specified (fst o) (snd o))) occs).

Definition extract_year_as_specified (txt : text) : result (option Z) :=
  match txt with
  | [] => Ok None
  | _ :: _ =>
      let txt_norm := normalize txt in
      shortcut <- date_shortcut txt_norm ;;
      match shortcut with
      | Some y => Ok (Some y)
      | None =>
          cands <- candidates_as_specified txt_norm ;;
          match cands with
          | [] => Ok None
          | _ :: _ => Ok (pick cands)
          end
      end
  end.

(** A currency marker follows a number: a digit, white space if any,
    and the euro sign. *)
Fixpoint euro_next (s : text) : bool :=
  match s with
  | [] => false
  | c :: s' => (c =? 8364) || (is_space c && euro_next s')
  end.

Fixpoint euro_follows_number (s : text) : bool :=
  match s with
  | [] => false
  | c :: s' => (is_digit c && euro_next s') || euro_follows_number s'
  end.

(** The character before the position is a digit. *)
Definition after_digit (c : cursor) : Prop :=
  exists d l, fst c = d :: l /\ is_digit d = true.

(** The four characters of a year token: [19] or [20] and two digits. *)
Definition year_chars (y1 y2 y3 y4 : char) : Prop :=
  ((y1 = 49 /\ y2 = 57) \/ (y1 = 50 /\ y2 = 48))
  /\ is_digit y3 = true /\ is_digit y4 = true.

End Extractors.

(** ** Scraper *)

(** What the module reads of a parsed page. *)
Record soup := {
  (** the [href] attribute, if it has one, of each [a] element *)
  anchors : list (option text);
  (** [soup.get_text(" ", strip=True)] *)
  page_text : text
}.

Inductive log_message :=
| CannotEstimatePagination (e : exn).

(** [range(a, b)] *)
Definition range (a b : Z) : list Z :=
  map (fun k => a + Z.of_nat k) (seq 0 (Z.to_nat (b - a))).

(** [s.rstrip("/")] *)
Fixpoint lstrip_slash (s : text) : text :=
  match s with
  | c :: s' => if c =? 47 then lstrip_slash s' else s
  | [] => []
  end.

Definition rstrip_slash (s : text) : text := rev (lstrip_slash (rev s)).

(** [str(i)] for [0 <= i] *)
Fixpoint uint_text (d : Decimal.uint) : text :=
  match d with
  | Decimal.Nil => []
  | Decimal.D0 d' => 48 :: uint_text d'
  | Decimal.D1 d' => 49 :: uint_text d'
  | Decimal.D2 d' => 50 :: uint_text d'
  | Decimal.D3 d' => 51 :: uint_text d'
  | Decimal.D4 d' => 52 :: uint_text d'
  | Decimal.D5 d' => 53 :: uint_text d'
  | Decimal.D6 d' => 54 :: uint_text d'
  | Decimal.D7 d' => 55 :: uint_text d'
  | Decimal.D8 d' => 56 :: uint_text d'
  | Decimal.D9 d' => 57 :: uint_text d'
  end.

Definition str_of_int (i : Z) : text := uint_text (N.to_uint (Z.to_N i)).

Fixpoint starts_with (p s : text) : bool :=
  match p, s with
  | [], _ => true
  | a :: p', b :: s' => (a =? b) && starts_with p' s'
  | _ :: _, [] => false
  end.

(** [k in s] *)
Fixpoint contains (k s : text) : bool :=
  starts_with k s || match s with [] => false | _ :: s' => contains k s' end.

Definition has_listings (s : soup) : bool :=
  existsb (fun k => contains k (page_text s))
    [str "annunci"; str "Prezzo"; str "km"; str "usate"].

Section Scraper.

Variable U : Unicode.

(** The world the requests go to, the headers and the delays are left
    abstract: [fetch] answers with a parsed page or raises, [sleep] and
    the log callback act on the world. *)
Variable World Headers Delay : Type.
Variable fetch : text -> Headers -> World -> result soup * World.
Variable sleep : Delay -> World -> World.

Definition logger := option (log_message -> World -> World).

Definition emit (log : logger) (msg : log_message) (w : World) : World :=
  match log with
  | Some f => f msg w
  | None => w
  end.

(** [f"{base_url.rstrip('/')}/pagina-{i}"] *)
Definition page_url (base_url : text) (i : Z) : text :=
  rstrip_slash base_url ++ str "/pagina-" ++ str_of_int i.

(** [/pagina-(\d+)] *)
Definition PAGINA_PAT : regex := Cat [Str "/pagina-"; Grp 1 (Plus (D U))].

(** The page indices that the links of the base page declare: the loop
    over [hrefs] that fills [nums].  Both are sets in the source; only
    membership in them is used. *)
Fixpoint declared_indices (hrefs : list text) (nums : list Z) : result (list Z) :=
  match hrefs with
  | [] => Ok nums
  | h :: hrefs' =>
      match h with
      | [] => declared_indices hrefs' nums
      | _ :: _ =>
          match search PAGINA_PAT h with
          | Some m =>
              n <- int U (group h m 1) ;;
              declared_indices hrefs' (n :: nums)
          | None => declared_indices hrefs' nums
          end
      end
  end.

(** The index that the link [h] declares, if it declares one, has no more
    digits than [int] converts. *)
Definition readable (h : text) : bool :=
  match search PAGINA_PAT h with
  | Some m => (length (group h m 1) <=? int_max_str_digits)%nat
  | None => true
  end.

Definition href_set (s : soup) : list text :=
  map (fun a => match a with Some h => h | None => [] end) (anchors s).

(** [max(nums)] of a non-empty [nums] *)
Definition maximum (nums : list Z) : Z :=
  match nums with
  | [] => 0
  | n :: ns => fold_left Z.max ns n
  end.

(** The incremental loop [for i in range(2, max_pages + 1)], from the
    indices [todo] still to probe. *)
Fixpoint probe (base_url : text) (headers : Headers) (delay : Delay)
    (todo : list Z) (pages : list text) (w : World) : result (list text) * World :=
  match todo with
  | [] => (Ok pages, w)
  | i :: todo' =>
      let url := page_url base_url i in
      match fetch url headers w with
      | (Ok s, w1) =>
          if negb (has_listings s) then (Ok pages, w1)
          else probe base_url headers delay todo' (pages ++ [url]) (sleep delay w1)
      | (Raise (HTTPError code), w1) =>
          match code with
          | Some 404 => (Ok pages, w1)
          | _ => probe base_url headers delay todo' pages (sleep delay w1)
          end
      | (Raise e, w1) => (Raise e, w1)
      end
  end.

Definition discover_pages (base_url : text) (headers : Headers) (max_pages : Z)
    (delay : Delay) (log : logger) (w : World) : result (list text) * World :=
  let pages := [rstrip_slash base_url] in
  let incremental := probe base_url headers delay (range 2 (max_pages + 1)) pages in
  match fetch base_url headers w with
  | (Ok s, w1) =>
      match declared_indices (href_set s) [] with
      | Ok nums =>
          match nums with
          | _ :: _ =>
              (Ok (pages ++ map (page_url base_url)
                                (range 2 (Z.min (maximum nums) max_pages + 1))), w1)
          | [] => incremental w1
          end
      | Raise e => incremental (emit log (CannotEstimatePagination e) w1)
      end
  | (Raise e, w1) => incremental (emit log (CannotEstimatePagination e) w1)
  end.

End Scraper.






(** ** The dataset of [run_scrape] *)

(** A row of the data frame: the dictionary [parse_page] builds. *)
Record listing := {
  brand : text;
  model : text;
  year : Z;
  price_eur : Z;
  km : option Z;
  location : option text;
  source_url : text
}.

Definition listing_eq_dec (a b : listing) : {a = b} + {a <> b}.
Proof.
  decide equality;
    try apply (list_eq_dec Z.eq_dec);
    try apply Z.eq_dec;
    decide equality; try apply Z.eq_dec; apply (list_eq_dec Z.eq_dec).
Defined.

(** [pd.DataFrame(rows)] gives every column the type of its values.  A
    column of numbers that all fit int64 is held as int64 when no number is
    missing and as float64 as soon as one is ([None] becomes NaN): each
    number is then the nearest double, ties going to the even one.  What a
    column with a number outside int64 holds, and whether building it
    raises, differs between the versions of pandas: it is left to
    [wide_column], which gives the number held for a number of the rows.
    The columns of strings hold the strings, and [None] where the location
    is missing. *)
Definition float64 (z : Z) : Z :=
  let a := Z.abs z in
  let extra := Z.log2 a - 52 in
  if extra <=? 0 then z
  else
    let unit := 2 ^ extra in
    let low := a mod unit in
    let down := a - low in
    let up :=
      if (unit <? 2 * low) || ((unit =? 2 * low) && Z.odd (down / unit))
      then down + unit else down in
    Z.sgn z * up.

Definition in_int64 (v : option Z) : bool :=
  match v with
  | Some z => (- 2 ^ 63 <=? z) && (z <? 2 ^ 63)
  | None => true
  end.

Definition missing (v : option Z) : bool :=
  match v with
  | Some _ => false
  | None => true
  end.

Record Pandas := {
  wide_column : list (option Z) -> result (Z -> Z)
}.

(** The number that the column of the values [vals] holds for a number. *)
Definition column (P : Pandas) (vals : list (option Z)) : result (Z -> Z) :=
  if forallb in_int64 vals
  then Ok (if existsb missing vals then float64 else fun z => z)
  else wide_column P vals.

Definition DataFrame (P : Pandas) (rows : list listing) : result (list listing) :=
  in_year <- column P (map (fun r => Some (year r)) rows) ;;
  in_price <- column P (map (fun r => Some (price_eur r)) rows) ;;
  in_km <- column P (map km rows) ;;
  Ok (map (fun r => {| brand := brand r; model := model r;
                       year := in_year (year r);
                       price_eur := in_price (price_eur r);
                       km := option_map in_km (km r);
                       location := location r;
                       source_url := source_url r |}) rows).

(** [df.drop_duplicates()]: a row equal in every column to an earlier row
    is dropped; two missing values of a column are equal. *)
Fixpoint drop_duplicates_from (seen rows : list listing) : list listing :=
  match rows with
  | [] => []
  | r :: rows' =>
      if in_dec listing_eq_dec r seen then drop_duplicates_from seen rows'
      else r :: drop_duplicates_from (r :: seen) rows'
  end.

Definition drop_duplicates (rows : list listing) : list listing :=
  drop_duplicates_from [] rows.

(** [df.sort_values(["year", "price_eur"], ascending=[True, True])]: rows
    with equal year and price keep their order. *)
Definition row_key (r : listing) : Z * Z := (year r, price_eur r).

Definition sort_values (rows : list listing) : list listing :=
  sort_by row_key rows.

(** [df.drop_duplicates()], then [df.sort_values(...)] unless [df.empty]. *)
Definition deduplicated_sorted (df : list listing) : list listing :=
  let df := drop_duplicates df in
  match df with
  | [] => df
  | _ :: _ => sort_values df
  end.

(** The end of [run_scrape], from the rows of all pages to the data frame
    returned. *)
Definition run_scrape_frame (P : Pandas) (rows : list listing)
    : result (list listing) :=
  df <- DataFrame P rows ;;
  Ok (deduplicated_sorted df).

(** ** The other helpers *)

(** [a{0,n}], greedy *)
Fixpoint UpTo (n : nat) (a : regex) : regex :=
  match n with
  | O => Eps
  | S n' => Opt (Seq a (UpTo n' a))
  end.

(** [m.group(0)] *)
Definition group0 (s : list Z) (m : rmatch) : list Z :=
  firstn (m_end m - m_start m) (skipn (m_start m) s).

Fixpoint lstrip (s : list Z) : list Z :=
  match s with
  | c :: s' => if is_space c then lstrip s' else s
  | [] => []
  end.

(** [s.strip()] *)
Definition strip (s : list Z) : list Z := rev (lstrip (rev (lstrip s))).

(** [re.sub(r"\s+", " ", s or "").strip()], [s] being a [str] or [None] *)
Definition text_clean (s : option (list Z)) : list Z :=
  strip (collapse_spaces false (match s with Some t => t | None => [] end)).

Section Helpers.

Variable U : Unicode.

(** [Km\s*:?[\s\-]*([\d\. ]+)], [re.IGNORECASE] *)
Definition KM_PAT : regex :=
  Cat [StrI U "Km"; Star Sp; Opt (Lit 58);
       Star (Chr (fun c => is_space c || (c =? 45)));
       Grp 1 (Plus (Chr (fun c => is_digit U c || (c =? 46) || (c =? 32))))].

Definition parse_km (txt : list Z) : result (option Z) :=
  match search KM_PAT txt with
  | None => Ok None
  | Some m =>
      let raw := remove 32 (remove 46 (group txt m 1)) in
      try_except_ValueError (v <- int U raw ;; Ok (Some v)) (Ok None)
  end.

(** [[A-Za-zÀ-ÿ'’\-\s]] *)
Definition place_char (c : Z) : bool :=
  between 65 90 c || between 97 122 c || between 192 255 c
  || (c =? 39) || (c =? 8217) || (c =? 45) || is_space c.

(** [([A-Za-zÀ-ÿ'’\-\s]+)\s*\([A-Z]{2}\)] *)
Definition LOCATION_PAT : regex :=
  Cat [Grp 1 (Plus (Chr place_char)); Star Sp;
       Lit 40; Chr (between 65 90); Chr (between 65 90); Lit 41].

Definition parse_location (txt : list Z) : option (list Z) :=
  match search LOCATION_PAT txt with
  | Some m => Some (text_clean (Some (group0 txt m)))
  | None => None
  end.

(** [(?:Anno|Immatricolazione|Immatricolata|Prima immatricolazione)[^\d]{0,12}(19\d{2}|20\d{2})],
    [re.IGNORECASE] *)
Definition DETAIL_PAT : regex :=
  Cat [Any [StrI U "Anno"; StrI U "Immatricolazione"; StrI U "Immatricolata";
            StrI U "Prima immatricolazione"];
       UpTo 12 (Chr (fun c => negb (is_digit U c)));
       Grp 1 (Alt (Cat [Str "19"; D U; D U]) (Cat [Str "20"; D U; D U]))].

(** The name of the folder in [desktop_model_dir]:
    [re.sub(r"[^\w\-\s\.]", "_", model.strip()) or "Report"] *)
Definition safe_char (c : Z) : bool :=
  is_word U c || (c =? 45) || is_space c || (c =? 46).

Definition safe_folder_name (model : list Z) : list Z :=
  match map (fun c => if safe_char c then c else 95) (strip model) with
  | [] => str "Report"
  | safe => safe
  end.

(** The body of the loop of [parse_year_from_detail] on the text of one
    container; [Some y] when it returns [y]. *)
Definition year_in_box (text : list Z) : result (option Z) :=
  labeled_year <-
    match search DETAIL_PAT text with
    | Some m =>
        y <- int U (group text m 1) ;;
        Ok (if in_year_range y then Some y else None)
    | None => Ok None
    end ;;
  match labeled_year with
  | Some y => Ok (Some y)
  | None =>
      dated_year <- date_shortcut U text ;;
      match dated_year with
      | Some y => Ok (Some y)
      | None =>
          y3 <- extract_year_from_text U text ;;
          match y3 with
          | Some y => if y =? 0 then Ok None else Ok (Some y)
          | None => Ok None
          end
      end
  end.

Fixpoint year_in_boxes (boxes : list (list Z)) : result (option Z) :=
  match boxes with
  | [] => Ok None
  | box :: boxes' =>
      found_year <- year_in_box (normalize box) ;;
      match found_year with
      | Some y => Ok (Some y)
      | None => year_in_boxes boxes'
      end
  end.

End Helpers.

(** ** The pages *)

(** A node of a page: its text, [node.get_text(" ", strip=True)], and the
    [href] attribute, if it has one, of each [a] element in it. *)
Record fragment := {
  frag_text : list Z;
  frag_anchors : list (option (list Z))
}.

Definition whole_page (s : soup) : fragment :=
  {| frag_text := page_text s; frag_anchors := anchors s |}.

Inductive year_origin := card | detail.

Inductive scrape_message :=
| Discovery (m : log_message)
| PageStart (idx total : Z) (p : list Z)
| Skipped
| Accepted (year : Z) (origin : year_origin) (price : Z) (href : list Z).

Record ScrapeConfig (Headers Delay : Type) := {
  search_url : list Z;
  delay_sec : Delay;
  max_pages : Z;
  headers : Headers;
  cfg_brand : list Z;
  cfg_model : list Z;
  verify_detail_year : bool
}.
Arguments search_url {Headers Delay} _.
Arguments delay_sec {Headers Delay} _.
Arguments max_pages {Headers Delay} _.
Arguments headers {Headers Delay} _.
Arguments cfg_brand {Headers Delay} _.
Arguments cfg_model {Headers Delay} _.
Arguments verify_detail_year {Headers Delay} _.

Definition nonempty (s : list Z) : bool :=
  match s with [] => false | _ :: _ => true end.

Section Pages.

Variable U : Unicode.
Variable World Headers Delay : Type.
Variable fetch : list Z -> Headers -> World -> result soup * World.
Variable sleep : Delay -> World -> World.

(** The selections of BeautifulSoup, [str.lower], [urljoin] and the
    columns of pandas are left abstract: the texts of the containers that
    the selector of [parse_year_from_detail] finds, the nodes that the
    selector of [listing_blocks] finds.  [urljoin] raises on some links
    ([ValueError] on [//[], which is no host). *)
Variable select_boxes : soup -> list (list Z).
Variable select_fragments : soup -> list fragment.
Variable str_lower : list Z -> list Z.
Variable urljoin : list Z -> list Z -> result (list Z).
Variable P : Pandas.

Definition scrape_logger := option (scrape_message -> World -> World).

Definition say (log : scrape_logger) (msg : scrape_message) (w : World) : World :=
  match log with
  | Some f => f msg w
  | None => w
  end.

Definition listing_blocks (s : soup) : list fragment :=
  match select_fragments s with
  | [] => [whole_page s]
  | nodes => nodes
  end.

Fixpoint first_href (l : list (option (list Z))) : option (list Z) :=
  match l with
  | [] => None
  | Some h :: _ => Some h
  | None :: l' => first_href l'
  end.

Definition extract_primary_link (node : fragment) : result (option (list Z)) :=
  match first_href (frag_anchors node) with
  | None => Ok None
  | Some href =>
      if starts_with (str "/") href
      then joined <- urljoin (str "https://www.moto.it") href ;; Ok (Some joined)
      else Ok (Some href)
  end.

Definition parse_year_from_detail (url : list Z) (hs : Headers) (w : World)
    : result (option Z) * World :=
  match fetch url hs w with
  | (Raise _, w1) => (Ok None, w1)
  | (Ok s, w1) =>
      let containers :=
        match select_boxes s with
        | [] => [page_text s]
        | boxes => boxes
        end in
      (year_in_boxes U containers, w1)
  end.

(** The loop of [parse_page] over the nodes still to read. *)
Fixpoint parse_nodes (url : list Z) (hs : Headers) (brand model : list Z)
    (verify : bool) (log : scrape_logger) (nodes : list fragment)
    (items : list listing) (w : World) : result (list listing) * World :=
  match nodes with
  | [] => (Ok items, w)
  | node :: nodes' =>
      let next := parse_nodes url hs brand model verify log nodes' in
      let txt := text_clean (Some (frag_text node)) in
      if nonempty brand && negb (contains (str_lower brand) (str_lower txt))
      then next items w
      else if nonempty model
              && negb (contains (remove 32 (str_lower model))
                                (remove 32 (str_lower txt)))
      then next items w
      else
        match parse_price U txt with
        | Raise e => (Raise e, w)
        | Ok None => next items w
        | Ok (Some price) =>
            match extract_year_from_text U txt with
            | Raise e => (Raise e, w)
            | Ok card_year =>
              match extract_primary_link node with
              | Raise e => (Raise e, w)
              | Ok link =>
                let href :=
                  match link with
                  | Some h => if nonempty h then h else url
                  | None => url
                  end in
                let '(resolved, w1) :=
                  match card_year with
                  | Some y => (Ok (Some (y, card)), w)
                  | None =>
                      if verify && nonempty href then
                        let '(y2, w') := parse_year_from_detail href hs w in
                        (y <- y2 ;;
                         Ok (match y with Some y => Some (y, detail) | None => None end),
                         w')
                      else (Ok None, w)
                  end in
                match resolved with
                | Raise e => (Raise e, w1)
                | Ok None => next items (say log Skipped w1)
                | Ok (Some (y, origin)) =>
                    match parse_km U txt with
                    | Raise e => (Raise e, w1)
                    | Ok k =>
                        let loc := parse_location txt in
                        next (items ++ [{| brand := brand; model := model;
                                           year := y; price_eur := price;
                                           km := k; location := loc;
                                           source_url := href |}])
                             (say log (Accepted y origin price href) w1)
                    end
                end
              end
            end
        end
  end.

Definition parse_page (url : list Z) (hs : Headers) (brand model : list Z)
    (verify : bool) (log : scrape_logger) (w : World)
    : result (list listing) * World :=
  match fetch url hs w with
  | (Raise e, w1) => (Raise e, w1)
  | (Ok s, w1) =>
      parse_nodes url hs brand model verify log (listing_blocks s) [] w1
  end.

Definition progress_callback := option (Z -> Z -> World -> World).

Definition report (progress_cb : progress_callback) (idx total : Z) (w : World)
    : World :=
  match progress_cb with
  | Some f => f idx total w
  | None => w
  end.

(** The loop of [run_scrape] over the pages, [idx] being the number of the
    next one. *)
Fixpoint scrape_pages (cfg : ScrapeConfig Headers Delay)
    (progress_cb : progress_callback) (log : scrape_logger) (total idx : Z)
    (pages : list (list Z)) (rows : list listing) (w : World)
    : result (list listing) * World :=
  match pages with
  | [] => (Ok rows, w)
  | p :: pages' =>
      let w1 := say log (PageStart idx total p) w in
      match parse_page p (headers cfg) (cfg_brand cfg) (cfg_model cfg)
                       (verify_detail_year cfg) log w1 with
      | (Raise e, w2) => (Raise e, w2)
      | (Ok items, w2) =>
          scrape_pages cfg progress_cb log total (idx + 1) pages' (rows ++ items)
                       (sleep (delay_sec cfg) (report progress_cb idx total w2))
      end
  end.

Definition run_scrape (cfg : ScrapeConfig Headers Delay)
    (progress_cb : progress_callback) (log : scrape_logger) (w : World)
    : result (list listing) * World :=
  let discovery_log :=
    match log with
    | Some f => Some (fun m => f (Discovery m))
    | None => None
    end in
  match discover_pages U World Headers Delay fetch sleep
          (search_url cfg) (headers cfg) (max_pages cfg) (delay_sec cfg)
          discovery_log w with
  | (Raise e, w1) => (Raise e, w1)
  | (Ok pages, w1) =>
      match scrape_pages cfg progress_cb log (Z.of_nat (length pages)) 1 pages [] w1 with
      | (Raise e, w2) => (Raise e, w2)
      | (Ok rows, w2) => (run_scrape_frame P rows, w2)
      end
  end.

End Pages.

(** ** What the further properties speak of *)

(** A text as [text_clean] leaves it: its only white space is U+0020, never
    twice in a row, never first or last. *)
Definition plain_spaces (r : list Z) : Prop :=
  forall c, In c r -> is_space c = true -> c = 32.
Definition no_double_space (r : list Z) : Prop :=
  forall l1 l2, r <> l1 ++ 32 :: 32 :: l2.
Definition no_space_first (r : list Z) : Prop :=
  forall c r', r = c :: r' -> is_space c = false.
Definition no_space_last (r : list Z) : Prop :=
  forall c r', r = r' ++ [c] -> is_space c = false.
Definition clean (r : list Z) : Prop :=
  plain_spaces r /\ no_double_space r /\ no_space_first r /\ no_space_last r.

(** No group is captured in [r]. *)
Fixpoint group_free (r : regex) : bool :=
  match r with
  | Grp _ _ => false
  | Seq a b | Alt a b => group_free a && group_free b
  | Star a => group_free a
  | _ => true
  end.

(** A record of a page: built from the clean text of one of its nodes. *)
Definition record_of (U : Unicode) (b m : list Z) (nodes : list fragment) (it : listing)
    : Prop :=
  brand it = b /\ model it = m
  /\ YEAR_MIN <= year it <= YEAR_MAX
  /\ exists node, In node nodes
       /\ let txt := text_clean (Some (frag_text node)) in
          parse_price U txt = Ok (Some (price_eur it))
          /\ parse_km U txt = Ok (km it)
          /\ location it = parse_location txt.

(** A row whose numbers every column holds as they are: year and price
    within int64, the mileage missing or of at most 53 bits. *)
Definition exact (r : listing) : bool :=
  in_int64 (Some (year r)) && in_int64 (Some (price_eur r))
  && match km r with
     | Some k => Z.abs k <=? 2 ^ 53
     | None => true
     end.

(** What [run_scrape] promises of a row. *)
Definition row_of {Headers Delay} (cfg : ScrapeConfig Headers Delay) (it : listing)
    : Prop :=
  brand it = cfg_brand cfg /\ model it = cfg_model cfg
  /\ YEAR_MIN <= year it <= YEAR_MAX.

(** ** Inputs used in the examples *)

Definition ad_labeled_year : list Z :=
  str "Anno 2019. Moto in ottime condizioni, garanzia fino al 2026".

Definition ad_warranty_date : list Z :=
  str "Anno 2019. Moto in ottime condizioni, garanzia fino al 03/2026".

Definition ad_two_labels : list Z :=
  str "anno 2021 e poi tante belle cose, anno 2019".

Definition ad_two_bare_years : list Z := str "2019 2020".

Definition ad_old_registration : list Z := str "immatricolata 03/1985".

Definition ad_label_and_warranty : list Z := str "anno 2010 garanzia".

Definition ad_two_dates : list Z := str "03/1985 05/2020".

Definition honda_url : list Z :=
  str "https://www.moto.it/moto-usate/honda/cbr-650-r".

Definition honda_url_slash : list Z :=
  str "https://www.moto.it/moto-usate/honda/cbr-650-r/".

Definition listing_page : soup :=
  {| anchors := []; page_text := str "12 annunci di moto usate" |}.

Definition declaring_page : soup :=
  {| anchors := [Some (str "/moto-usate/honda/cbr-650-r/pagina-2"); None;
                 Some (str "/moto-usate/honda/cbr-650-r/pagina-7")];
     page_text := str "12 annunci di moto usate" |}.

(** Sites: the world is the list of the requests made so far. *)
Definition site_declaring (url : list Z) (_ : unit) (w : list (list Z))
    : result soup * list (list Z) :=
  (Ok declaring_page, w ++ [url]).

Definition site_failing_on (e : exn) (url : list Z) (_ : unit) (w : list (list Z))
    : result soup * list (list Z) :=
  (if contains (str "/pagina-2") url then Raise e else Ok listing_page, w ++ [url]).


Definition no_sleep (_ : unit) (w : list (list Z)) : list (list Z) := w.

Definition row (y p : Z) (k : option Z) : listing :=
  {| brand := str "Honda"; model := str "CBR 650 R"; year := y; price_eur := p;
     km := k; location := None; source_url := honda_url |}.

Definition ad_honda : list Z :=
  str "Honda CBR 650 R, Anno 2019, 12.500 €, Km: 8.200, Milano (MI)".

Definition honda_page : soup := {| anchors := []; page_text := ad_honda |}.

Definition detail_page : soup :=
  {| anchors := [];
     page_text := str "Scheda tecnica  Immatricolazione: 2018  Cilindrata 649" |}.

(** A site of one page of listings: the further pages are not found. *)
Definition site_one_page (url : list Z) (_ : unit) (w : list (list Z))
    : result soup * list (list Z) :=
  (if contains (str "/pagina-") url then Raise (HTTPError (Some 404))
   else Ok honda_page, w ++ [url]).

Definition site_detail (url : list Z) (_ : unit) (w : list (list Z))
    : result soup * list (list Z) :=
  (Ok detail_page, w ++ [url]).

Definition no_boxes (_ : soup) : list (list Z) := [].
Definition no_fragments (_ : soup) : list fragment := [].
Definition basic_lower (s : list Z) : list Z := map lower s.
Definition join_paths (base href : list Z) : result (list Z) := Ok (base ++ href).

(** A base page whose one link declares an index of 4301 digits. *)
Definition long_index_page : soup :=
  {| anchors := [Some (str "/moto-usate/honda/cbr-650-r/pagina-" ++ repeat 49 4301)];
     page_text := str "12 annunci di moto usate" |}.

(** An [urljoin] that raises on a path that opens a host in brackets. *)
Definition strict_join (base href : list Z) : result (list Z) :=
  if starts_with (str "//[") href then Raise ValueError else Ok (base ++ href).

Definition bracket_page : soup :=
  {| anchors := [Some (str "//[")]; page_text := ad_honda |}.

(** A pandas that keeps the numbers of a column outside int64 as they are. *)
Definition object_columns : Pandas :=
  {| wide_column := fun _ => Ok (fun z => z) |}.

Definition honda_cfg : ScrapeConfig unit unit :=
  {| search_url := honda_url; delay_sec := tt; max_pages := 3; headers := tt;
     cfg_brand := str "Honda"; cfg_model := str "CBR 650 R";
     verify_detail_year := true |}.

Definition honda_row : listing :=
  {| brand := str "Honda"; model := str "CBR 650 R"; year := 2019;
     price_eur := 12500; km := Some 8200; location := Some (str "Milano (MI)");
     source_url := honda_url |}.

(** Pages of several ads: the nodes are the parts of the text of the page
    between vertical bars. *)
Fixpoint split_on (sep : Z) (s : list Z) : list (list Z) :=
  match s with
  | [] => [[]]
  | c :: s' =>
      match split_on sep s' with
      | part :: parts =>
          if c =? sep then [] :: part :: parts else (c :: part) :: parts
      | [] => [[c]]
      end
  end.

Definition ads_between_bars (s : soup) : list fragment :=
  map (fun t => {| frag_text := t; frag_anchors := [] |})
      (split_on 124 (page_text s)).

(** A site of one page, [page]: the further pages are not found. *)
Definition site_of (page : soup) (url : list Z) (_ : unit) (w : list (list Z))
    : result soup * list (list Z) :=
  (if contains (str "/pagina-") url then Raise (HTTPError (Some 404))
   else Ok page, w ++ [url]).

(** Four ads, one of them twice, in no order; one states no mileage. *)
Definition ads_page : soup :=
  {| anchors := [];
     page_text :=
       str "Honda CBR 650 R, Anno 2021, 9.000 €, Km 9007199254740993, Roma (RM)"
       ++ str "|Honda CBR 650 R, Anno 2019, 12.500 €, Km: 8.200, Milano (MI)"
       ++ str "|Honda CBR 650 R, Anno 2021, 9.000 €, Km 9007199254740993, Roma (RM)"
       ++ str "|Honda CBR 650 R, Anno 2019, 11.000 €, Torino (TO)" |}.

Definition ad_row (y p : Z) (k : option Z) (place : string) : listing :=
  {| brand := str "Honda"; model := str "CBR 650 R"; year := y; price_eur := p;
     km := k; location := Some (str place); source_url := honda_url |}.

(** Three ads that differ in the mileage alone: 2^53 + 1 km, 2^53 km and
    none stated. *)
Definition km_page : soup :=
  {| anchors := [];
     page_text :=
       str "Honda CBR 650 R, Anno 2019, 12.500 €, Km 9007199254740993, Milano (MI)"
       ++ str "|Honda CBR 650 R, Anno 2019, 12.500 €, Km 9007199254740992, Milano (MI)"
       ++ str "|Honda CBR 650 R, Anno 2019, 12.500 €, Milano (MI)" |}.

Definition km_rows : list listing :=
  [ad_row 2019 12500 (Some 9007199254740993) "Milano (MI)";
   ad_row 2019 12500 (Some 9007199254740992) "Milano (MI)";
   ad_row 2019 12500 None "Milano (MI)"].

(** * Properties *)

(** ** The matcher finds matches only *)

Section ReFacts.

Context {R : Type}.

Lemma star_loop_sound (body : matcher R)
    (d : cursor -> captures -> cursor -> captures -> Prop) :
  (forall c g k v, body c g k = Some v ->
     exists c' g', d c g c' g' /\ k c' g' = Some v) ->
  forall k n c g v, star_loop body k n c g = Some v ->
    exists c' g', star_den d c g c' g' /\ k c' g' = Some v.
Proof.
  intros Hbody k n.
  induction n as [|n IH]; simpl; intros c g v H.
  - exists c, g. split; [apply star_stop | exact H].
  - destruct (body c g _) as [v'|] eqn:E.
    + injection H as ->.
      apply Hbody in E. destruct E as (c1 & g1 & Hd & Hk).
      destruct (Nat.ltb _ _); [|discriminate].
      apply IH in Hk. destruct Hk as (c2 & g2 & Hs & Hk).
      exists c2, g2. split; [eapply star_more; eauto | exact Hk].
    + exists c, g. split; [apply star_stop | exact H].
Qed.

Lemma run_sound (r : regex) :
  forall c g (k : cursor -> captures -> option R) v,
    run r c g k = Some v ->
    exists c' g', den r c g c' g' /\ k c' g' = Some v.
Proof.
  induction r as [|p|a IHa b IHb|a IHa b IHb|a IHa|w| | |i a IHa];
    simpl; intros c g k v H.
  - exists c, g. auto.
  - destruct (snd c) as [|x s] eqn:Es; [discriminate|].
    destruct (p x) eqn:Ep; [|discriminate].
    exists (x :: fst c, s), g. split; [|exact H].
    exists x, s. auto.
  - apply IHa in H. destruct H as (c1 & g1 & Ha & H).
    apply IHb in H. destruct H as (c2 & g2 & Hb & H).
    exists c2, g2. split; [|exact H]. exists c1, g1. auto.
  - destruct (run a c g k) as [v'|] eqn:E.
    + injection H as ->. apply IHa in E. destruct E as (c1 & g1 & Ha & H).
      exists c1, g1. auto.
    + apply IHb in H. destruct H as (c1 & g1 & Hb & H).
      exists c1, g1. auto.
  - eapply star_loop_sound; eauto.
  - destruct (at_boundary w c) eqn:E; [|discriminate].
    exists c, g. auto.
  - destruct (fst c) eqn:E; [|discriminate].
    exists c, g. auto.
  - destruct (at_end c) eqn:E; [|discriminate].
    exists c, g. auto.
  - apply IHa in H. destruct H as (c1 & g1 & Ha & H).
    exists c1, ((i, (pos c, pos c1)) :: g1). split; [|exact H].
    exists g1. auto.
Qed.

End ReFacts.

Lemma spans_refl c : spans c c [].
Proof. split; reflexivity. Qed.

Lemma spans_trans c1 c2 c3 m1 m2 :
  spans c1 c2 m1 -> spans c2 c3 m2 -> spans c1 c3 (m1 ++ m2).
Proof.
  intros [H1 H2] [H3 H4]. split.
  - rewrite H1, H3. now rewrite app_assoc.
  - rewrite H4, H2, rev_app_distr. now rewrite app_assoc.
Qed.

Lemma den_spans r : forall c g c' g', den r c g c' g' -> exists mid, spans c c' mid.
Proof.
  induction r as [|p|a IHa b IHb|a IHa b IHb|a IHa|w| | |i a IHa];
    simpl; intros c g c' g' H.
  - destruct H as [-> _]. exists []. apply spans_refl.
  - destruct H as (x & s & Hs & _ & -> & _). exists [x]. split; auto.
  - destruct H as (c1 & g1 & Ha & Hb).
    apply IHa in Ha. apply IHb in Hb.
    destruct Ha as [m1 Ha]. destruct Hb as [m2 Hb].
    exists (m1 ++ m2). eapply spans_trans; eauto.
  - destruct H as [H|H]; eauto.
  - induction H as [c g|c g c1 g1 c2 g2 Hd Hs IH].
    + exists []. apply spans_refl.
    + apply IHa in Hd. destruct Hd as [m1 Hd]. destruct IH as [m2 IH].
      exists (m1 ++ m2). eapply spans_trans; eauto.
  - destruct H as (_ & -> & _). exists []. apply spans_refl.
  - destruct H as (_ & -> & _). exists []. apply spans_refl.
  - destruct H as (_ & -> & _). exists []. apply spans_refl.
  - destruct H as (g1 & Ha & _). eauto.
Qed.

Lemma spans_subject c c' mid : spans c c' mid -> subject c' = subject c.
Proof.
  intros [H1 H2]. unfold subject. rewrite H1, H2, rev_app_distr, rev_involutive.
  now rewrite <- app_assoc.
Qed.

Lemma spans_pos c c' mid : spans c c' mid -> pos c' = (pos c + length mid)%nat.
Proof.
  intros [_ H]. unfold pos. rewrite H, length_app, length_rev. lia.
Qed.

(** The text between two positions of a subject, by its offsets. *)
Lemma spans_slice c c' mid :
  spans c c' mid ->
  firstn (pos c' - pos c) (skipn (pos c) (subject c)) = mid.
Proof.
  intros H. rewrite (spans_pos _ _ _ H).
  destruct H as [H1 _]. unfold subject, pos.
  rewrite skipn_app, skipn_all2 by (rewrite length_rev; lia).
  rewrite length_rev, Nat.sub_diag. simpl. rewrite H1.
  replace (length (fst c) + length mid - length (fst c))%nat with (length mid + 0)%nat by lia.
  rewrite firstn_app_2. simpl. apply app_nil_r.
Qed.

(** What [search] and [finditer] return are matches at positions of the
    subject. *)
Lemma search_from_sound r : forall s l m,
  search_from r l s = Some m ->
  exists c, subject c = subject (l, s) /\ match_at r c = Some m.
Proof.
  induction s as [|x s IH]; cbn [search_from]; intros l m H.
  - destruct (match_at r _) eqn:E; [|discriminate].
    injection H as ->. eauto.
  - destruct (match_at r _) eqn:E.
    + injection H as ->. eauto.
    + apply IH in H. destruct H as (c & Hc & H). exists c. split; [|exact H].
      rewrite Hc. unfold subject. simpl. now rewrite <- app_assoc.
Qed.

Lemma finditer_from_sound r : forall s k l m,
  In m (finditer_from r k l s) ->
  exists c, subject c = subject (l, s) /\ match_at r c = Some m.
Proof.
  induction s as [|x s IH]; cbn [finditer_from]; intros k l m H.
  - destruct k; [|contradiction].
    destruct (match_at r _) eqn:E; [|contradiction].
    destruct H as [<-|[]]. eauto.
  - assert (Hsub : subject (x :: l, s) = subject (l, x :: s)).
    { unfold subject. simpl. now rewrite <- app_assoc. }
    destruct k.
    + destruct (match_at r _) eqn:E.
      * destruct H as [<-|H]; [eauto|].
        apply IH in H. destruct H as (c & Hc & H). exists c. split; [rewrite Hc; exact Hsub | exact H].
      * apply IH in H. destruct H as (c & Hc & H). exists c. split; [rewrite Hc; exact Hsub | exact H].
    + apply IH in H. destruct H as (c & Hc & H). exists c. split; [rewrite Hc; exact Hsub | exact H].
Qed.

Lemma match_at_sound r c m :
  match_at r c = Some m ->
  exists c' , den r c [] c' (m_groups m) /\ m_start m = pos c /\ m_end m = pos c'.
Proof.
  unfold match_at. intros H. apply run_sound in H.
  destruct H as (c' & g' & Hd & H). injection H as <-. simpl. eauto.
Qed.

Ltac den_inv :=
  repeat match goal with
  | H : exists _, _ |- _ => destruct H
  | H : _ /\ _ |- _ => destruct H
  | H : (_, _) = (_, _) |- _ => injection H as ? ?
  end.

(** Rewriting the test of a conditional with [H], up to conversion. *)
Ltac rewrite_if H :=
  match type of H with
  | _ = ?v =>
      match goal with
      | |- context [if ?b then _ else _] => replace b with v by (symmetry; exact H)
      end
  end.

Section PatternFacts.

Variable U : Unicode.
Hypothesis laws : UnicodeLaws U.

Lemma is_space_not_word c : is_space c = true -> is_word U c = false.
Proof.
  intros H. unfold is_word. destruct (known c) eqn:K.
  - unfold known, is_space, latin1_alnum, between in *. lia.
  - now apply (space_not_alnum U laws).
Qed.

Lemma is_digit_word c : is_digit U c = true -> is_word U c = true.
Proof.
  unfold is_digit, digit_value, is_word. destruct (known c).
  - unfold latin1_alnum. destruct (between 48 57 c); [reflexivity|discriminate].
  - destruct (uni_decimal U c) eqn:E; [|discriminate].
    intros _. eapply (decimal_alnum U laws); eauto.
Qed.

Lemma year_chars_word y1 y2 y3 y4 :
  year_chars U y1 y2 y3 y4 ->
  is_word U y1 = true /\ is_word U y2 = true /\ is_word U y3 = true /\ is_word U y4 = true.
Proof.
  intros (H12 & H3 & H4).
  repeat split; try (now apply is_digit_word);
    destruct H12 as [[-> ->]|[-> ->]]; reflexivity.
Qed.

Lemma digits_value_digits s : forall acc,
  Forall (fun c => is_digit U c = true) s -> exists v, digits_value U acc s = Some v.
Proof.
  induction s as [|c s IH]; simpl; intros acc H.
  - eauto.
  - inversion H as [|? ? Hc Hs]; subst. unfold is_digit in Hc.
    destruct (digit_value U c); [|discriminate]. now apply IH.
Qed.

Lemma int_year y1 y2 y3 y4 :
  year_chars U y1 y2 y3 y4 -> exists y, int U [y1; y2; y3; y4] = Ok y.
Proof.
  intros (H12 & H3 & H4). unfold int.
  destruct (digits_value_digits [y1; y2; y3; y4] 0) as [v ->].
  { repeat constructor; auto; destruct H12 as [[-> ->]|[-> ->]]; reflexivity. }
  replace (int_max_str_digits <? length [y1; y2; y3; y4])%nat with false
    by reflexivity.
  eauto.
Qed.

Lemma Str_19 : Str "19" = Seq (Lit 49) (Lit 57).
Proof. reflexivity. Qed.

Lemma Str_20 : Str "20" = Seq (Lit 50) (Lit 48).
Proof. reflexivity. Qed.

(** The year alternatives [19\d{2}] and [20\d{2}]. *)
Lemma year_alt_den a b c g c' g' :
  (a = 49 /\ b = 57) \/ (a = 50 /\ b = 48) ->
  den (Seq (Seq (Lit a) (Lit b)) (Seq (D U) (D U))) c g c' g' ->
  exists y1 y2 y3 y4 rest,
    snd c = y1 :: y2 :: y3 :: y4 :: rest /\ c' = (y4 :: y3 :: y2 :: y1 :: fst c, rest)
    /\ year_chars U y1 y2 y3 y4 /\ g' = g.
Proof.
  intros Hab H. cbn in H. den_inv. subst. cbn in *. subst.
  repeat match goal with H : (_ =? _) = true |- _ => apply Z.eqb_eq in H end.
  subst.
  do 5 eexists. split; [eassumption|]. split; [reflexivity|].
  split; [|reflexivity]. unfold year_chars. auto.
Qed.

Lemma YEAR_PAT_den c g c' g' :
  den (YEAR_PAT U) c g c' g' ->
  exists y1 y2 y3 y4 rest,
    snd c = y1 :: y2 :: y3 :: y4 :: rest /\ c' = (y4 :: y3 :: y2 :: y1 :: fst c, rest)
    /\ year_chars U y1 y2 y3 y4
    /\ at_boundary (is_word U) c = true /\ at_boundary (is_word U) c' = true
    /\ g' = (1%nat, (pos c, pos c')) :: g.
Proof.
  unfold YEAR_PAT. rewrite Str_19, Str_20. cbn [Cat den]. intros H.
  destruct H as (c1 & g1 & (Hb & -> & ->) & c2 & g2 & (g3 & Halt & ->) & Hb2 & -> & ->).
  destruct Halt as [H|H];
    [apply (year_alt_den 49 57) in H | apply (year_alt_den 50 48) in H]; auto;
    destruct H as (y1 & y2 & y3 & y4 & rest & Hs & -> & Hy & ->);
    exists y1, y2, y3, y4, rest; auto 10.
Qed.

(** At a year token with word boundaries around it [YEAR_PAT] matches. *)
Lemma YEAR_PAT_matches l y1 y2 y3 y4 rest :
  year_chars U y1 y2 y3 y4 ->
  is_word_at (is_word U) l = false ->
  at_boundary (is_word U) (y4 :: y3 :: y2 :: y1 :: l, rest) = true ->
  match_at (YEAR_PAT U) (l, y1 :: y2 :: y3 :: y4 :: rest)
  = Some {| m_start := length l; m_end := 4 + length l;
            m_groups := [(1%nat, (length l, (4 + length l)%nat))] |}.
Proof.
  intros Hy Hl Hr.
  assert (Hb : at_boundary (is_word U) (l, y1 :: y2 :: y3 :: y4 :: rest) = true).
  { unfold at_boundary. cbn [fst snd]. rewrite Hl. cbn.
    now destruct (year_chars_word _ _ _ _ Hy) as (-> & _). }
  destruct Hy as (H12 & H3 & H4).
  unfold match_at, YEAR_PAT. rewrite Str_19, Str_20.
  cbn [Cat run B]. rewrite Hb. cbn [snd fst D Lit].
  destruct H12 as [[-> ->]|[-> ->]]; cbn -[at_boundary]; rewrite H3, H4; cbn -[at_boundary];
    rewrite_if Hr; reflexivity.
Qed.

Lemma star_spaces c g c' g' :
  star_den (den Sp) c g c' g' ->
  g' = g /\ subject c' = subject c
  /\ (c' = c \/ exists x l, fst c' = x :: l /\ is_space x = true).
Proof.
  induction 1 as [c g|c g c1 g1 c2 g2 Hd Hs IH].
  - auto.
  - cbn in Hd. destruct Hd as (x & s & Hx & Hsp & -> & ->).
    destruct IH as (-> & Hsub & IH). split; [reflexivity|]. split.
    + rewrite Hsub. unfold subject. cbn. rewrite Hx, <- app_assoc. reflexivity.
    + right. destruct IH as [->|IH]; [|exact IH]. cbn. eauto.
Qed.

Lemma DATE_PAT_den c g c' g' :
  den (DATE_PAT U) c g c' g' ->
  exists l y1 y2 y3 y4 rest,
    subject (l, y1 :: y2 :: y3 :: y4 :: rest) = subject c
    /\ c' = (y4 :: y3 :: y2 :: y1 :: l, rest)
    /\ year_chars U y1 y2 y3 y4
    /\ is_word_at (is_word U) l = false
    /\ at_boundary (is_word U) c' = true
    /\ lookup 2 g' = Some (length l, (4 + length l)%nat).
Proof.
  unfold DATE_PAT. rewrite Str_19, Str_20.
  set (month := Alt _ _). set (years := Alt _ _). cbn [Cat den]. intros H.
  destruct H as (c1 & g1 & (_ & -> & ->) & c2 & g2 & (g3 & Hm & ->)
                 & c3 & g4 & Hs1 & c4 & g5 & Hsep & c5 & g6 & Hs2
                 & c6 & g7 & (g8 & Hy & ->) & Hb & -> & ->).
  apply den_spans in Hm. destruct Hm as [mid Hm].
  apply spans_subject in Hm.
  apply star_spaces in Hs1. destruct Hs1 as (_ & Hsub1 & _).
  cbn in Hsep. destruct Hsep as (x & s & Hx & Hsepx & -> & ->).
  apply star_spaces in Hs2. destruct Hs2 as (-> & Hsub2 & Hprev).
  assert (Hw : is_word_at (is_word U) (fst c5) = false).
  { destruct Hprev as [->|(y & l & -> & Hy')]; cbn.
    - unfold is_word. apply orb_true_iff in Hsepx.
      destruct Hsepx as [E|E]; apply Z.eqb_eq in E; subst x; reflexivity.
    - now apply is_space_not_word. }
  assert (Hsub : subject c5 = subject c).
  { rewrite Hsub2. unfold subject at 1. cbn. rewrite <- app_assoc. cbn.
    rewrite <- Hx. fold (subject c3). now rewrite Hsub1. }
  destruct Hy as [Hy|Hy];
    [apply (year_alt_den 50 48) in Hy | apply (year_alt_den 49 57) in Hy]; auto;
    destruct Hy as (y1 & y2 & y3 & y4 & rest & Hs & -> & Hy & ->);
    exists (fst c5), y1, y2, y3, y4, rest;
    (split; [rewrite <- Hs, <- Hsub; destruct c5; reflexivity|]);
    (split; [reflexivity|]); (split; [exact Hy|]); (split; [exact Hw|]);
    (split; [exact Hb|]); cbn; reflexivity.
Qed.

(** [finditer] does not step over a year token that follows a character
    which is no word character: a match before it ends before it. *)
Lemma finditer_year_found y1 y2 y3 y4 rest :
  year_chars U y1 y2 y3 y4 ->
  forall s1 l k,
    is_word_at (is_word U) (rev s1 ++ l) = false ->
    at_boundary (is_word U) (y4 :: y3 :: y2 :: y1 :: rev s1 ++ l, rest) = true ->
    (k <= length s1)%nat ->
    In {| m_start := length (rev s1 ++ l); m_end := 4 + length (rev s1 ++ l);
          m_groups := [(1%nat, (length (rev s1 ++ l), (4 + length (rev s1 ++ l))%nat))] |}
       (finditer_from (YEAR_PAT U) k l (s1 ++ y1 :: y2 :: y3 :: y4 :: rest)).
Proof.
  intros Hy. induction s1 as [|x s1 IH]; intros l k Hl Hr Hk.
  - assert (k = 0%nat) as -> by (simpl in Hk; lia).
    cbn [app rev finditer_from] in *.
    rewrite (YEAR_PAT_matches l y1 y2 y3 y4 rest Hy Hl Hr). now left.
  - cbn [rev] in *. rewrite <- app_assoc in *. cbn [app] in *.
    destruct k as [|k]; cbn [finditer_from].
    + destruct (match_at (YEAR_PAT U) _) as [m|] eqn:E.
      * right. apply IH; auto.
        apply match_at_sound in E. destruct E as (c' & Hd & -> & ->).
        apply YEAR_PAT_den in Hd.
        destruct Hd as (a1 & a2 & a3 & a4 & rest' & Hs & -> & Ha & _).
        cbn [fst snd] in Hs. unfold pos. cbn [fst length].
        destruct (year_chars_word _ _ _ _ Ha) as (W1 & W2 & W3 & _).
        injection Hs as <- Hs.
        destruct s1 as [|b1 [|b2 [|b3 s1]]]; cbn [length]; try lia; exfalso;
          cbn in Hs, Hl.
        -- congruence.
        -- injection Hs as <- _. congruence.
        -- injection Hs as <- <- _. congruence.
      * apply IH; auto. lia.
    + apply IH; auto. simpl in Hk. lia.
Qed.

Lemma collect_outside txt_norm : forall ms cands,
  forallb outside_range (map (fun m => int U (group txt_norm m 1)) ms) = true ->
  collect U txt_norm ms cands = Ok cands.
Proof.
  induction ms as [|m ms IH]; cbn [collect map forallb]; intros cands H.
  - reflexivity.
  - apply andb_true_iff in H. destruct H as [Hm H].
    destruct (int U (group txt_norm m 1)) as [y|e]; [|discriminate].
    cbn [bind outside_range] in *. rewrite Hm. now apply IH.
Qed.

Lemma date_shortcut_outside txt :
  forallb outside_range (year_tokens U txt) = true ->
  date_shortcut U (normalize txt) = Ok None.
Proof.
  intros H. unfold date_shortcut.
  destruct (search (DATE_PAT U) (normalize txt)) as [md|] eqn:E; [|reflexivity].
  apply search_from_sound in E. destruct E as (c & Hc & E).
  apply match_at_sound in E. destruct E as (c' & Hd & _ & _).
  apply DATE_PAT_den in Hd.
  destruct Hd as (l & y1 & y2 & y3 & y4 & rest & Hsub & -> & Hy & Hl & Hr & Hg).
  rewrite Hc in Hsub. unfold subject in Hsub. cbn [fst snd rev app] in Hsub.
  assert (Hgrp : group (normalize txt) md 2 = [y1; y2; y3; y4]).
  { unfold group. rewrite Hg, <- Hsub.
    rewrite skipn_app, skipn_all2 by (rewrite length_rev; lia).
    rewrite length_rev, Nat.sub_diag.
    replace (4 + length l - length l)%nat with 4%nat by lia. reflexivity. }
  rewrite Hgrp.
  pose proof (finditer_year_found y1 y2 y3 y4 rest Hy (rev l) [] 0%nat) as Hin.
  rewrite app_nil_r, rev_involutive in Hin.
  specialize (Hin Hl Hr (Nat.le_0_l _)).
  unfold year_tokens, finditer in H. rewrite <- Hsub in H.
  rewrite forallb_forall in H.
  specialize (H _ (in_map _ _ _ Hin)).
  unfold group in H. cbn [m_groups lookup Nat.eqb] in H.
  rewrite skipn_app, skipn_all2 in H by (rewrite length_rev; lia).
  rewrite length_rev, Nat.sub_diag in H.
  replace (4 + length l - length l)%nat with 4%nat in H by lia.
  cbn [skipn app firstn] in H.
  destruct (int U [y1; y2; y3; y4]) as [y|e]; [|discriminate].
  cbn [bind outside_range] in *.
  destruct (in_year_range y); [discriminate|reflexivity].
Qed.

(** C3: a text whose year tokens all lie outside [1990, 2035] is left
    unresolved, whatever labels or month/year patterns go with them: the
    year of a month/year pattern is one of the tokens, so the shortcut does
    not return, and no token becomes a candidate. *)
Theorem years_outside_range_unresolved txt :
  forallb outside_range (year_tokens U txt) = true ->
  extract_year_from_text U txt = Ok None.
Proof.
  intros H. unfold extract_year_from_text.
  destruct txt as [|c txt]; [reflexivity|].
  rewrite (date_shortcut_outside _ H). cbn [bind].
  unfold candidates. rewrite (collect_outside _ _ [] H). reflexivity.
Qed.

End PatternFacts.

(** ** The stable sort *)

Section SortFacts.

Context {A : Type} (key : A -> Z * Z).

Local Abbreviation le := (key_le key).

Lemma key_leb_total (a b : Z * Z) : key_leb a b = false -> key_leb b a = true.
Proof. unfold key_leb. lia. Qed.

Lemma key_leb_trans (a b c : Z * Z) :
  key_leb a b = true -> key_leb b c = true -> key_leb a c = true.
Proof. unfold key_leb. lia. Qed.

Lemma key_leb_antisym (a b : Z * Z) :
  key_leb a b = true -> key_leb b a = true -> a = b.
Proof. destruct a, b. unfold key_leb. cbn [fst snd]. intros. f_equal; lia. Qed.

Lemma insert_sorted_in x l y : In y (insert_sorted key x l) <-> y = x \/ In y l.
Proof.
  induction l as [|h t IH]; cbn [insert_sorted].
  - cbn. intuition.
  - destruct (key_leb (key h) (key x)); cbn [In]; [rewrite IH|]; intuition.
Qed.

Lemma insert_sorted_sorted x l :
  StronglySorted le l -> StronglySorted le (insert_sorted key x l).
Proof.
  induction 1 as [|h t Hs IH Hh]; cbn [insert_sorted].
  - repeat constructor.
  - destruct (key_leb (key h) (key x)) eqn:E.
    + constructor; [exact IH|].
      apply Forall_forall. intros y Hy. apply insert_sorted_in in Hy.
      destruct Hy as [->|Hy]; [exact E|].
      rewrite Forall_forall in Hh. now apply Hh.
    + apply key_leb_total in E.
      constructor; [now constructor|].
      constructor; [exact E|].
      eapply Forall_impl; [|exact Hh].
      intros y Hy. eapply key_leb_trans; eauto.
Qed.

(** Inserting an element that is not smaller than any other appends it. *)
Lemma insert_sorted_last x l :
  Forall (fun h => le h x) l -> insert_sorted key x l = l ++ [x].
Proof.
  induction 1 as [|h t Hh Ht IH]; cbn [insert_sorted app].
  - reflexivity.
  - unfold le in Hh. rewrite Hh, IH. reflexivity.
Qed.

Lemma sort_from_in l : forall acc y,
  In y (fold_left (fun acc x => insert_sorted key x acc) l acc) <-> In y acc \/ In y l.
Proof.
  induction l as [|x l IH]; cbn [fold_left]; intros acc y.
  - cbn. intuition.
  - rewrite IH, insert_sorted_in. cbn [In]. intuition.
Qed.

Lemma sort_from_sorted l : forall acc,
  StronglySorted le acc ->
  StronglySorted le (fold_left (fun acc x => insert_sorted key x acc) l acc).
Proof.
  induction l as [|x l IH]; cbn [fold_left]; intros acc H.
  - exact H.
  - apply IH. now apply insert_sorted_sorted.
Qed.

Lemma sort_by_in l y : In y (sort_by key l) <-> In y l.
Proof. unfold sort_by. rewrite sort_from_in. cbn. intuition. Qed.

Lemma sort_by_sorted l : StronglySorted le (sort_by key l).
Proof. apply sort_from_sorted. constructor. Qed.

(** A sorted list is left as it is. *)
Lemma sort_from_id l : forall acc,
  StronglySorted le (acc ++ l) ->
  fold_left (fun acc x => insert_sorted key x acc) l acc = acc ++ l.
Proof.
  induction l as [|x l IH]; cbn [fold_left]; intros acc H.
  - now rewrite app_nil_r.
  - assert (Hx : Forall (fun h => le h x) acc).
    { clear IH. induction acc as [|a acc IHacc]; [constructor|].
      cbn [app] in H. inversion H as [|? ? Hs Ha]; subst.
      constructor; [|now apply IHacc].
      rewrite Forall_forall in Ha. apply Ha. apply in_or_app. right. now left. }
    rewrite (insert_sorted_last _ _ Hx).
    replace (acc ++ x :: l) with ((acc ++ [x]) ++ l) in * by (now rewrite <- app_assoc).
    now apply IH.
Qed.

Lemma sort_by_id l : StronglySorted le l -> sort_by key l = l.
Proof. intros H. unfold sort_by. now rewrite sort_from_id. Qed.

(** The last element of a sorted list has the largest key. *)
Lemma sorted_last l b rest :
  StronglySorted le l -> rev l = b :: rest ->
  forall x, In x l -> le x b.
Proof.
  intros Hs Hr x Hx.
  assert (Hl : l = rev rest ++ [b]).
  { rewrite <- (rev_involutive l), Hr. reflexivity. }
  subst l. clear Hr.
  induction (rev rest) as [|h t IH]; cbn [app] in *.
  - destruct Hx as [->|[]]. unfold le, key_leb. lia.
  - inversion Hs as [|? ? Hs' Hh]; subst.
    destruct Hx as [->|Hx]; [|now apply IH].
    rewrite Forall_forall in Hh. apply Hh. apply in_or_app. right. now left.
Qed.

Lemma sort_by_best l :
  l <> [] ->
  exists b rest, rev (sort_by key l) = b :: rest /\ In b l
                 /\ forall x, In x l -> le x b.
Proof.
  intros Hne.
  destruct (rev (sort_by key l)) as [|b rest] eqn:E.
  - exfalso. destruct l as [|x l]; [congruence|].
    assert (Hin : In x (sort_by key (x :: l))) by (apply sort_by_in; now left).
    rewrite <- (rev_involutive (sort_by key (x :: l))), E in Hin. exact Hin.
  - exists b, rest. split; [reflexivity|].
    assert (Hb : In b (sort_by key l)).
    { apply in_rev. rewrite E. now left. }
    split; [apply sort_by_in; exact Hb|].
    intros x Hx. eapply sorted_last; eauto using sort_by_sorted.
    now apply sort_by_in.
Qed.

End SortFacts.

(** ** The choice among the candidates *)

Lemma pick_some cands y s :
  In (y, s) cands -> 1 < s ->
  (forall y' s', In (y', s') cands -> s' < s \/ (s' = s /\ y <= y')) ->
  pick cands = Some y.
Proof.
  intros Hin Hs Hmax. unfold pick.
  destruct (sort_by_best sort_key cands) as (b & rest & -> & Hb & Hbest).
  { intros ->. exact Hin. }
  destruct b as [by_ bs].
  specialize (Hbest _ Hin). specialize (Hmax _ _ Hb).
  unfold key_le, key_leb, sort_key in Hbest. cbn [fst snd] in Hbest.
  assert (bs = s /\ by_ = y) as [-> ->] by lia.
  destruct (s <=? 1) eqn:E; [lia|reflexivity].
Qed.

Lemma pick_none cands :
  (forall y s, In (y, s) cands -> s <= 1) -> pick cands = None.
Proof.
  intros H. unfold pick.
  destruct cands as [|c cands]; [reflexivity|].
  destruct (sort_by_best sort_key (c :: cands)) as (b & rest & -> & Hb & _);
    [discriminate|].
  destruct b as [by_ bs]. apply H in Hb.
  destruct (bs <=? 1) eqn:E; [reflexivity|lia].
Qed.

(** Candidates scored at most [1] besides do not change the choice. *)
Lemma pick_low_extra cands cands' :
  (forall c, In c cands -> In c cands') ->
  (forall y s, In (y, s) cands' -> In (y, s) cands \/ s <= 1) ->
  pick cands' = pick cands.
Proof.
  intros Hsub Hextra.
  destruct cands as [|c0 cands0] eqn:Ec.
  - rewrite (pick_none cands'); [reflexivity|].
    intros y s H. destruct (Hextra _ _ H) as [[]|Hs]. exact Hs.
  - rewrite <- Ec in *.
    destruct (sort_by_best sort_key cands) as (b & rest & Hr & Hb & Hbest);
      [congruence|].
    destruct b as [by_ bs].
    destruct (Z_le_gt_dec bs 1) as [Hlow|Hhigh].
    + assert (Hall : forall y s, In (y, s) cands -> s <= 1).
      { intros y s H. specialize (Hbest _ H).
        unfold key_le, key_leb, sort_key in Hbest. cbn [fst snd] in Hbest. lia. }
      rewrite (pick_none cands Hall). apply pick_none.
      intros y s H. destruct (Hextra _ _ H) as [H'|H']; [eauto|exact H'].
    + assert (Hmax : forall y' s', In (y', s') cands -> s' < bs \/ (s' = bs /\ by_ <= y')).
      { intros y' s' H. specialize (Hbest _ H).
        unfold key_le, key_leb, sort_key in Hbest. cbn [fst snd] in Hbest. lia. }
      rewrite (pick_some cands by_ bs Hb ltac:(lia) Hmax).
      apply (pick_some cands' by_ bs (Hsub _ Hb) ltac:(lia)).
      intros y' s' H. destruct (Hextra _ _ H) as [H'|H']; [eauto|lia].
Qed.

Section YearFacts.

Variable U : Unicode.

Lemma collect_occurrences txt_norm : forall ms cands,
  collect U txt_norm ms cands
  = (occs <- occurrences_of U txt_norm ms ;; Ok (cands ++ flat_map (scored U) occs)).
Proof.
  induction ms as [|m ms IH]; intros cands; cbn [collect occurrences_of bind].
  - cbn. now rewrite app_nil_r.
  - destruct (int U (group txt_norm m 1)) as [y|e]; cbn [bind]; [|reflexivity].
    destruct (in_year_range y); cbn [negb].
    + assert (Hsc : forall rest,
                flat_map (scored U) ((y, window_of txt_norm m) :: rest)
                = option_list (score U y (window_of txt_norm m)) ++ flat_map (scored U) rest)
        by reflexivity.
      destruct (score U y (window_of txt_norm m)) as [cand|]; rewrite IH;
        destruct (occurrences_of U txt_norm ms) as [occs|e]; cbn [bind];
        try reflexivity; rewrite Hsc; cbn [option_list app];
        [now rewrite <- app_assoc | reflexivity].
    + rewrite IH. now destruct (occurrences_of U txt_norm ms).
Qed.

Lemma candidates_occurrences txt_norm :
  candidates U txt_norm
  = (occs <- occurrences U txt_norm ;; Ok (flat_map (scored U) occs)).
Proof. unfold candidates, occurrences. now rewrite collect_occurrences. Qed.

Lemma candidates_empty_text : candidates U (normalize []) = Ok [].
Proof. reflexivity. Qed.

Lemma search_date_empty_text : search (DATE_PAT U) (normalize []) = None.
Proof. reflexivity. Qed.

Lemma choice_is_pick (cands : list (Z * Z)) :
  match cands with [] => Ok None | _ :: _ => Ok (pick cands) end = Ok (pick cands).
Proof. now destruct cands. Qed.

(** The resolver, once the month/year shortcut has not answered. *)
Lemma extract_year_scored txt cands :
  date_shortcut U (normalize txt) = Ok None ->
  candidates U (normalize txt) = Ok cands ->
  extract_year_from_text U txt = Ok (pick cands).
Proof.
  intros Hd Hc. unfold extract_year_from_text.
  destruct txt as [|c txt].
  - rewrite candidates_empty_text in Hc. now injection Hc as <-.
  - rewrite Hd. cbn [bind]. rewrite Hc. cbn [bind]. apply choice_is_pick.
Qed.

Lemma scored_in o y s :
  In (y, s) (scored U o) ->
  y = fst o
  /\ ((labeled U (snd o) = true /\ negative U (snd o) = false /\ 10 <= s)
      \/ (labeled U (snd o) = false /\ s <= 1)).
Proof.
  unfold scored, score, labeled, negative.
  destruct (found (LABEL_NEAR_PAT U) (snd o)), (found (NEG_CONTEXT_PAT U) (snd o));
    cbn [andb negb option_list In].
  - contradiction.
  - intros [H|[]]. injection H as <- <-. split; [reflexivity|]. left.
    repeat split. destruct (found (DATE_PAT U) (snd o)); lia.
  - intros [H|[]]. injection H as <- <-. split; [reflexivity|]. right.
    split; [reflexivity|lia].
  - intros [H|[]]. injection H as <- <-. split; [reflexivity|]. right.
    split; [reflexivity|lia].
Qed.

Lemma scored_labeled o :
  labeled U (snd o) = true -> negative U (snd o) = false ->
  exists s, scored U o = [(fst o, s)] /\ 10 <= s.
Proof.
  unfold scored, score, labeled, negative. intros -> ->.
  cbn [andb negb option_list].
  destruct (found (DATE_PAT U) (snd o)); eexists; (split; [reflexivity | lia]).
Qed.

(** C1 holds wherever the month/year shortcut does not return another
    year: when exactly one in-range year of the text has a label term and
    no negative-context term in its window, every other in-range year being
    unlabeled or in negative context, and the shortcut does not return or
    returns that year, the resolver returns that year. *)
Theorem labeled_year_wins txt before y w after :
  date_shortcut U (normalize txt) = Ok None
  \/ date_shortcut U (normalize txt) = Ok (Some y) ->
  occurrences U (normalize txt) = Ok (before ++ (y, w) :: after) ->
  labeled U w = true -> negative U w = false ->
  (forall o, In o (before ++ after) ->
     labeled U (snd o) = false \/ negative U (snd o) = true) ->
  extract_year_from_text U txt = Ok (Some y).
Proof.
  intros [Hd|Hd] Ho Hl Hn Hother.
  2:{ unfold extract_year_from_text. destruct txt as [|c txt].
      - unfold date_shortcut in Hd. rewrite search_date_empty_text in Hd.
        discriminate Hd.
      - rewrite Hd. reflexivity. }
  pose proof (candidates_occurrences (normalize txt)) as Hc.
  rewrite Ho in Hc. cbn [bind] in Hc.
  rewrite (extract_year_scored _ _ Hd Hc). f_equal.
  destruct (scored_labeled (y, w) Hl Hn) as (s & Hs & Hs10). cbn [fst] in Hs.
  apply (pick_some _ y s).
  - apply in_flat_map. exists (y, w). split; [apply in_elt|].
    rewrite Hs. now left.
  - lia.
  - intros y' s' H. apply in_flat_map in H. destruct H as (o & Ho' & H).
    apply in_app_or in Ho'. cbn [In] in Ho'.
    assert (Hcase : o = (y, w) \/ In o (before ++ after)).
    { destruct Ho' as [Ho'|[Ho'|Ho']]; [right|left|right]; auto using in_or_app. }
    destruct Hcase as [->|Ho''].
    + rewrite Hs in H. destruct H as [H|[]]. injection H as <- <-. lia.
    + apply scored_in in H. destruct H as (_ & [(Hl' & Hn' & _)|(_ & Hlow)]); [|lia].
      destruct (Hother _ Ho'') as [E|E]; congruence.
Qed.

(** C2, amended: when the month/year shortcut does not return and two or
    more candidate years share the maximal score, and this score is above
    the low-positive threshold 1, the resolver returns the smallest of the
    years with the maximal score. *)
Theorem tie_prefers_smaller_year txt cands y y2 s :
  date_shortcut U (normalize txt) = Ok None ->
  candidates U (normalize txt) = Ok cands ->
  In (y, s) cands -> In (y2, s) cands -> y < y2 ->
  1 < s ->
  (forall y' s', In (y', s') cands -> s' <= s) ->
  (forall y', In (y', s) cands -> y <= y') ->
  extract_year_from_text U txt = Ok (Some y).
Proof.
  intros Hd Hc Hy _ _ Hs Hmax Hmin.
  rewrite (extract_year_scored _ _ Hd Hc). f_equal.
  apply (pick_some _ y s Hy Hs).
  intros y' s' H. specialize (Hmax _ _ H).
  destruct (Z.eq_dec s' s) as [->|Hne]; [right|left; lia].
  split; [reflexivity|]. now apply Hmin.
Qed.



Lemma score_or_specified y w :
  score U y w
  = if labeled U w && negative U w then None else score_as_specified U y w.
Proof.
  unfold score, score_as_specified, labeled, negative.
  now destruct (found (LABEL_NEAR_PAT U) w), (found (NEG_CONTEXT_PAT U) w).
Qed.

Lemma specified_in o y s :
  In (y, s) (option_list (score_as_specified U (fst o) (snd o))) ->
  In (y, s) (scored U o) \/ s <= 1.
Proof.
  unfold scored. rewrite score_or_specified.
  unfold score_as_specified.
  destruct (labeled U (snd o)), (negative U (snd o)); cbn; auto.
  intros [H|[]]. injection H as <- <-. right. lia.
Qed.

Lemma scored_specified o c :
  In c (scored U o) -> In c (option_list (score_as_specified U (fst o) (snd o))).
Proof.
  unfold scored. rewrite score_or_specified.
  destruct (labeled U (snd o) && negative U (snd o)); [contradiction|auto].
Qed.

(** C5, amended: a year whose window has both a label term and a
    negative-context term is kept out of the high-confidence branch and
    adds no candidate at all; on every other window the code scores as
    specified.  The result of the resolver is all the same the one obtained
    when such a year is scored as an unlabeled negative-context candidate. *)
Theorem label_with_negative_context :
  (forall y w,
     score U y w
     = if labeled U w && negative U w then None else score_as_specified U y w)
  /\ (forall txt, extract_year_from_text U txt = extract_year_as_specified U txt).
Proof.
  split; [exact score_or_specified|].
  intros txt. unfold extract_year_from_text, extract_year_as_specified.
  destruct txt as [|c txt]; [reflexivity|].
  destruct (date_shortcut U (normalize (c :: txt))) as [[y|]|e]; cbn [bind];
    try reflexivity.
  rewrite candidates_occurrences. unfold candidates_as_specified.
  destruct (occurrences U (normalize (c :: txt))) as [occs|e]; cbn [bind];
    [|reflexivity].
  rewrite !choice_is_pick. f_equal. symmetry. apply pick_low_extra.
  - intros cand H. apply in_flat_map in H. destruct H as (o & Ho & H).
    apply in_flat_map. exists o. split; [exact Ho|]. now apply scored_specified.
  - intros y s H. apply in_flat_map in H. destruct H as (o & Ho & H).
    destruct (specified_in _ _ _ H) as [H'|H']; [left|now right].
    apply in_flat_map. eauto.
Qed.

(** C6, amended: when the first month/year pattern of the text has its year
    in [1990, 2035], the resolver returns that year, whatever its window
    and the other years of the text are. *)
Theorem first_date_pattern_wins txt m y :
  search (DATE_PAT U) (normalize txt) = Some m ->
  int U (group (normalize txt) m 2) = Ok y ->
  in_year_range y = true ->
  extract_year_from_text U txt = Ok (Some y).
Proof.
  intros Hs Hi Hr. unfold extract_year_from_text.
  destruct txt as [|c txt].
  - rewrite search_date_empty_text in Hs. discriminate.
  - unfold date_shortcut. rewrite Hs, Hi. cbn [bind]. rewrite Hr. reflexivity.
Qed.

End YearFacts.

Section PriceFacts.

Variable U : Unicode.

Lemma D_after_digit c g c' g' : den (D U) c g c' g' -> after_digit U c'.
Proof.
  cbn. intros (x & s & _ & Hx & -> & _). exists x, (fst c). auto.
Qed.

Lemma star_after_digit a c g c' g' :
  (forall c g c' g', den a c g c' g' -> after_digit U c') ->
  star_den (den a) c g c' g' -> after_digit U c -> after_digit U c'.
Proof.
  intros Ha. induction 1 as [|c g c1 g1 c2 g2 Hd Hs IH]; [auto|].
  intros _. apply IH. eapply Ha; eauto.
Qed.

Lemma Str_euro : Str "€" = Lit 8364.
Proof. reflexivity. Qed.

Lemma price_number_after_digit c g c' g' :
  den (Alt (Seq (Seq (D U) (Opt (Seq (D U) (Opt (D U)))))
                (Plus (Cat [Chr (fun c => (c =? 46) || is_space c); D U; D U; D U])))
           (Plus (D U))) c g c' g' ->
  after_digit U c'.
Proof.
  unfold Plus. cbn [Cat].
  set (thousands := Seq (Chr _) _).
  assert (Ht : forall c g c' g', den thousands c g c' g' -> after_digit U c').
  { unfold thousands. cbn [den].
    intros c0 g0 c0' g0' (c1 & g1 & _ & c2 & g2 & _ & c3 & g3 & _ & H).
    eapply D_after_digit. exact H. }
  intros [H|H]; cbn [den] in H.
  - destruct H as (c1 & g1 & _ & c2 & g2 & H2 & Hs).
    apply (star_after_digit _ _ _ _ _ Ht Hs). eapply Ht. exact H2.
  - destruct H as (c1 & g1 & H1 & Hs).
    apply (star_after_digit _ _ _ _ _ D_after_digit Hs).
    eapply D_after_digit. exact H1.
Qed.

Lemma spaces_then_euro c g c' g' :
  star_den (den Sp) c g c' g' ->
  euro_next (snd c') = true -> euro_next (snd c) = true.
Proof.
  induction 1 as [|c g c1 g1 c2 g2 Hd Hs IH]; [auto|].
  intros H. apply IH in H. cbn in Hd.
  destruct Hd as (x & s & -> & Hx & -> & _). cbn [snd] in H.
  cbn [euro_next]. rewrite Hx, H. now rewrite orb_true_r.
Qed.

Lemma euro_follows_number_at pre d s :
  is_digit U d = true -> euro_next s = true ->
  euro_follows_number U (pre ++ d :: s) = true.
Proof.
  intros Hd Hs. induction pre as [|x pre IH]; cbn [app euro_follows_number].
  - now rewrite Hd, Hs.
  - rewrite IH. apply orb_true_r.
Qed.

Lemma PRICE_PAT_den c g c' g' :
  den (PRICE_PAT U) c g c' g' -> euro_follows_number U (subject c) = true.
Proof.
  unfold PRICE_PAT. rewrite Str_euro. cbn [Cat].
  set (number := Alt _ _). cbn [den].
  intros (c1 & g1 & (g0 & Hn & _) & c2 & g2 & Hs & He).
  pose proof (price_number_after_digit _ _ _ _ Hn) as (d & l & Hl & Hd).
  apply den_spans in Hn. destruct Hn as [mid Hn].
  rewrite <- (spans_subject _ _ _ Hn). unfold subject. rewrite Hl.
  cbn [rev]. rewrite <- app_assoc. cbn [app].
  apply euro_follows_number_at; [exact Hd|].
  eapply spaces_then_euro; [exact Hs|].
  unfold Lit in He. cbn [den] in He. destruct He as (x & s & -> & Hx & _).
  cbn [euro_next]. apply Z.eqb_eq in Hx. subst x. reflexivity.
Qed.

Lemma parse_price_no_marker txt :
  euro_follows_number U txt = false -> parse_price U txt = Ok None.
Proof.
  intros H. unfold parse_price.
  destruct (search (PRICE_PAT U) txt) as [m|] eqn:E; [|reflexivity].
  apply search_from_sound in E. destruct E as (c & Hc & E).
  apply match_at_sound in E. destruct E as (c' & Hd & _).
  apply PRICE_PAT_den in Hd. rewrite Hc in Hd.
  unfold subject in Hd. cbn in Hd. congruence.
Qed.

Lemma int_raises s e : int U s = Raise e -> e = ValueError.
Proof.
  unfold int. destruct s; [congruence|].
  destruct (digits_value U 0 _); [|congruence].
  destruct (_ <? _)%nat; congruence.
Qed.

Lemma parse_price_returns txt : exists r, parse_price U txt = Ok r.
Proof.
  unfold parse_price.
  destruct (search (PRICE_PAT U) txt) as [m|]; [|eauto].
  destruct (int U _) as [v|e] eqn:E; cbn [bind try_except_ValueError]; [eauto|].
  apply int_raises in E. subst e. eauto.
Qed.

(** C7: [12.500 €] and [12 500 €] both give 12500; a text in which no
    currency marker follows a number gives none, and so does [€12.500];
    [parse_price] returns on every text, the [ValueError] of [int] being
    caught. *)
Theorem parse_price_examples :
  parse_price U (str "12.500 €") = Ok (Some 12500)
  /\ parse_price U (str "12 500 €") = Ok (Some 12500)
  /\ (forall txt, euro_follows_number U txt = false -> parse_price U txt = Ok None)
  /\ parse_price U (str "€12.500") = Ok None
  /\ (forall txt, exists r, parse_price U txt = Ok r).
Proof.
  split; [vm_compute; reflexivity|].
  split; [vm_compute; reflexivity|].
  split; [exact parse_price_no_marker|].
  split; [vm_compute; reflexivity|].
  exact parse_price_returns.
Qed.

End PriceFacts.

Section ScraperFacts.

Variable U : Unicode.
Variable World Headers Delay : Type.
Variable fetch : list Z -> Headers -> World -> result soup * World.
Variable sleep : Delay -> World -> World.

Lemma star_digits c g c' g' :
  star_den (den (D U)) c g c' g' ->
  exists mid, spans c c' mid /\ Forall (fun x => is_digit U x = true) mid.
Proof.
  induction 1 as [c g|c g c1 g1 c2 g2 Hd Hs IH].
  - exists []. split; [apply spans_refl|constructor].
  - destruct IH as (mid & Hsp & Hmid).
    cbn in Hd. destruct Hd as (x & s & Hx & Hdx & -> & _).
    exists (x :: mid). split; [|now constructor].
    apply (spans_trans c (x :: fst c, s) c2 [x] mid); [split; auto|exact Hsp].
Qed.

Lemma PAGINA_PAT_group h m :
  search (PAGINA_PAT U) h = Some m ->
  if (length (group h m 1) <=? int_max_str_digits)%nat
  then exists n, int U (group h m 1) = Ok n
  else int U (group h m 1) = Raise ValueError.
Proof.
  intros E. apply search_from_sound in E. destruct E as (c & Hc & E).
  apply match_at_sound in E. destruct E as (c' & Hd & _).
  unfold PAGINA_PAT, Plus in Hd. cbn [Cat] in Hd.
  set (prefix := Str _) in Hd. cbn [den] in Hd.
  destruct Hd as (c1 & g1 & Hp & g0 & (c2 & g2 & Hd1 & Hds) & Hg).
  apply den_spans in Hp. destruct Hp as (pre & Hp).
  apply star_digits in Hds. destruct Hds as (mid & Hsp & Hmid).
  cbn in Hd1. destruct Hd1 as (x & s & Hx & Hdx & -> & _).
  assert (Hsp1 : spans c1 c' (x :: mid)).
  { apply (spans_trans c1 (x :: fst c1, s) c' [x] mid); [split; auto|exact Hsp]. }
  assert (Hsub : subject c1 = h).
  { rewrite (spans_subject _ _ _ Hp), Hc. reflexivity. }
  unfold group. rewrite Hg. cbn [lookup Nat.eqb].
  rewrite <- Hsub, (spans_slice _ _ _ Hsp1).
  unfold int.
  destruct (digits_value_digits U (x :: mid) 0) as [v ->]; [now constructor|].
  rewrite Nat.ltb_antisym.
  destruct (length (x :: mid) <=? int_max_str_digits)%nat; cbn [negb]; eauto.
Qed.

(** The loop over the links returns when every index is readable, and
    raises [ValueError] otherwise. *)
Lemma declared_indices_returns hrefs : forall nums,
  forallb (readable U) hrefs = true ->
  exists nums', declared_indices U hrefs nums = Ok nums'.
Proof.
  induction hrefs as [|h hrefs IH]; intros nums Hr; cbn [declared_indices].
  - eauto.
  - cbn [forallb] in Hr. apply andb_true_iff in Hr. destruct Hr as [Hh Hr].
    destruct h as [|c h]; [now apply IH|].
    unfold readable in Hh.
    destruct (search (PAGINA_PAT U) (c :: h)) as [m|] eqn:E; [|now apply IH].
    pose proof (PAGINA_PAT_group _ _ E) as Hg. rewrite Hh in Hg.
    destruct Hg as [n ->]. cbn [bind]. now apply IH.
Qed.

Lemma declared_indices_raises hrefs : forall nums,
  forallb (readable U) hrefs = false ->
  declared_indices U hrefs nums = Raise ValueError.
Proof.
  induction hrefs as [|h hrefs IH]; intros nums Hr; cbn [declared_indices].
  - discriminate Hr.
  - cbn [forallb] in Hr.
    destruct h as [|c h].
    { assert (Hn : readable U [] = true) by reflexivity.
      rewrite Hn in Hr. now apply IH. }
    unfold readable in Hr.
    destruct (search (PAGINA_PAT U) (c :: h)) as [m|] eqn:E; [|now apply IH].
    pose proof (PAGINA_PAT_group _ _ E) as Hg.
    destruct (length (group (c :: h) m 1) <=? int_max_str_digits)%nat.
    + destruct Hg as [n ->]. cbn [bind]. now apply IH.
    + rewrite Hg. reflexivity.
Qed.

Lemma fold_max_spec ns : forall n,
  let hi := fold_left Z.max ns n in
  (hi = n \/ In hi ns) /\ n <= hi /\ forall k, In k ns -> k <= hi.
Proof.
  induction ns as [|a ns IH]; intros n; cbn [fold_left].
  - cbn. intuition lia.
  - destruct (IH (Z.max n a)) as (Hin & Hle & Hall). cbn zeta.
    split; [|split].
    + destruct Hin as [Hin|Hin]; [|right; now right].
      rewrite Hin. destruct (Z.max_spec n a) as [[_ ->]|[_ ->]]; [right; now left|now left].
    + lia.
    + intros k [<-|Hk]; [lia|now apply Hall].
Qed.

(** [maximum] is the highest of the indices. *)
Lemma maximum_spec nums :
  nums <> [] ->
  In (maximum nums) nums /\ forall k, In k nums -> k <= maximum nums.
Proof.
  destruct nums as [|n ns]; [congruence|]. intros _. unfold maximum.
  destruct (fold_max_spec ns n) as (Hin & Hle & Hall). split.
  - destruct Hin as [->|Hin]; [now left|now right].
  - intros k [<-|Hk]; auto.
Qed.

Lemma length_range a b : length (range a b) = Z.to_nat (b - a).
Proof. unfold range. now rewrite length_map, length_seq. Qed.

(** C8, amended: when the links of the base page declare page indices that
    [int] reads, none of more than 4300 digits, so that the loop over the
    links returns them ([declared_indices_returns]), the result is the base
    URL without its trailing slashes, then the URLs of the pages 2 to
    min(highest declared index, cap), in this order, and nothing else; with
    7 as the highest index and a cap of 5 these are 5 URLs. *)
Theorem declared_pagination base_url headers max_pages delay log w s w1 nums :
  fetch base_url headers w = (Ok s, w1) ->
  declared_indices U (href_set s) [] = Ok nums ->
  nums <> [] ->
  let pages := rstrip_slash base_url
               :: map (page_url base_url) (range 2 (Z.min (maximum nums) max_pages + 1)) in
  discover_pages U World Headers Delay fetch sleep base_url headers max_pages delay log w
  = (Ok pages, w1)
  /\ In (maximum nums) nums
  /\ (forall k, In k nums -> k <= maximum nums)
  /\ (maximum nums = 7 -> max_pages = 5 -> length pages = 5%nat)
  /\ forallb (readable U) (href_set s) = true.
Proof.
  intros Hf Hn Hne pages. split; [|split; [|split; [|split]]].
  - unfold discover_pages. rewrite Hf, Hn.
    destruct nums; [congruence|reflexivity].
  - now apply maximum_spec.
  - now apply maximum_spec.
  - intros H7 H5. unfold pages. cbn [length]. rewrite length_map, length_range, H7, H5.
    reflexivity.
  - destruct (forallb (readable U) (href_set s)) eqn:Hr; [reflexivity|].
    rewrite (declared_indices_raises (href_set s) [] Hr) in Hn. discriminate Hn.
Qed.





End ScraperFacts.

(** ** The dataset *)

Lemma drop_duplicates_from_nodup rows : forall seen,
  NoDup rows -> (forall r, In r rows -> ~ In r seen) ->
  drop_duplicates_from seen rows = rows.
Proof.
  induction rows as [|r rows IH]; intros seen Hnd Hseen; cbn [drop_duplicates_from].
  - reflexivity.
  - inversion Hnd as [|? ? Hr Hrows]; subst.
    destruct (in_dec listing_eq_dec r seen) as [Hin|_].
    + exfalso. apply (Hseen r); [now left|exact Hin].
    + f_equal. apply IH; [exact Hrows|].
      intros r' Hr' [<-|Hin]; [contradiction|].
      apply (Hseen r'); [now right|exact Hin].
Qed.

Lemma key_le_trans {A} (key : A -> Z * Z) : RelationClasses.Transitive (key_le key).
Proof. intros a b c. unfold key_le. apply key_leb_trans. Qed.

Lemma insert_sorted_perm {A} (key : A -> Z * Z) x l :
  Permutation (insert_sorted key x l) (x :: l).
Proof.
  induction l as [|h t IH]; cbn [insert_sorted].
  - reflexivity.
  - destruct (key_leb (key h) (key x)); [|reflexivity].
    rewrite IH. apply perm_swap.
Qed.

Lemma sort_by_perm {A} (key : A -> Z * Z) l : Permutation (sort_by key l) l.
Proof.
  unfold sort_by.
  assert (H : forall acc,
             Permutation (fold_left (fun acc x => insert_sorted key x acc) l acc)
                         (acc ++ l)).
  { induction l as [|x l IH]; intros acc; cbn [fold_left].
    - now rewrite app_nil_r.
    - rewrite IH, insert_sorted_perm. apply Permutation_middle. }
  apply (H []).
Qed.

Lemma drop_duplicates_from_spec rows : forall seen,
  NoDup (drop_duplicates_from seen rows)
  /\ forall r, In r (drop_duplicates_from seen rows) -> ~ In r seen.
Proof.
  induction rows as [|r rows IH]; intros seen; cbn [drop_duplicates_from].
  - split; [constructor|intros r []].
  - destruct (in_dec listing_eq_dec r seen) as [Hin|Hout]; [apply IH|].
    destruct (IH (r :: seen)) as [Hnd Hseen]. split.
    + constructor; [|exact Hnd]. intros H. apply (Hseen r H). now left.
    + intros r' [<-|H]; [exact Hout|].
      intros H'. apply (Hseen r' H). now right.
Qed.

Lemma deduplicated_sorted_sorts df :
  deduplicated_sorted df = sort_values (drop_duplicates df).
Proof. unfold deduplicated_sorted. now destruct (drop_duplicates df). Qed.

(** The data frame has no two equal rows and is in the order of the years,
    then of the prices; deduplicating and sorting it again changes
    nothing. *)
Lemma deduplicated_sorted_clean df :
  NoDup (deduplicated_sorted df) /\ Sorted (key_le row_key) (deduplicated_sorted df).
Proof.
  rewrite deduplicated_sorted_sorts. unfold sort_values. split.
  - eapply Permutation_NoDup; [symmetry; apply sort_by_perm|].
    apply drop_duplicates_from_spec.
  - apply StronglySorted_Sorted, sort_by_sorted.
Qed.

Lemma deduplicated_sorted_fixed df :
  NoDup df -> Sorted (key_le row_key) df -> deduplicated_sorted df = df.
Proof.
  intros Hnd Hs. unfold deduplicated_sorted, drop_duplicates.
  rewrite (drop_duplicates_from_nodup df [] Hnd) by (intros r _ []).
  destruct df as [|r df]; [reflexivity|].
  apply sort_by_id. apply Sorted_StronglySorted; [apply key_le_trans|exact Hs].
Qed.

Lemma deduplicated_sorted_idempotent df :
  deduplicated_sorted (deduplicated_sorted df) = deduplicated_sorted df.
Proof.
  destruct (deduplicated_sorted_clean df) as [Hnd Hs].
  now apply deduplicated_sorted_fixed.
Qed.

(** A number of at most 53 bits is its own double. *)
Lemma float64_exact z : Z.abs z <= 2 ^ 53 -> float64 z = z.
Proof.
  intros Hz. unfold float64.
  destruct (Z.leb_spec (Z.log2 (Z.abs z) - 52) 0) as [_|Hlog]; [reflexivity|].
  assert (Ha : Z.abs z = 2 ^ 53).
  { assert (Hpos : 0 < Z.abs z).
    { destruct (Z.eq_dec (Z.abs z) 0) as [E|E]; [|lia].
      rewrite E in Hlog. cbn in Hlog. lia. }
    assert (H53 : 2 ^ 53 <= Z.abs z).
    { apply (Z.log2_le_pow2 _ _ Hpos). lia. }
    lia. }
  rewrite Ha. replace (Z.log2 (2 ^ 53) - 52) with 1 by reflexivity.
  replace (2 ^ 53 mod 2 ^ 1) with 0 by reflexivity.
  replace (2 ^ 1 <? 2 * 0) with false by reflexivity.
  replace (2 ^ 1 =? 2 * 0) with false by reflexivity.
  cbn [orb andb]. rewrite Z.sub_0_r, <- Ha. rewrite Z.mul_comm. apply Z.abs_sgn.
Qed.

Lemma column_exact P vals :
  forallb in_int64 vals = true ->
  Forall (fun v => match v with Some z => Z.abs z <= 2 ^ 53 | None => True end) vals ->
  exists f, column P vals = Ok f
            /\ Forall (fun v => option_map f v = v) vals.
Proof.
  intros Hin Hex. unfold column. rewrite Hin.
  destruct (existsb missing vals).
  - exists float64. split; [reflexivity|].
    eapply Forall_impl; [|exact Hex].
    intros [z|] Hz; [|reflexivity]. cbn [option_map]. now rewrite float64_exact.
  - exists (fun z => z). split; [reflexivity|].
    apply Forall_forall. now intros [z|] _.
Qed.

(** A column in which no number is missing and all fit int64 holds them. *)
Lemma column_int64 P (zs : list Z) :
  forallb in_int64 (map Some zs) = true ->
  column P (map Some zs) = Ok (fun z => z).
Proof.
  intros Hin. unfold column. rewrite Hin.
  replace (existsb missing (map Some zs)) with false; [reflexivity|].
  symmetry. induction zs as [|z zs IH]; [reflexivity|].
  cbn [map forallb] in Hin. apply andb_true_iff in Hin. now apply IH.
Qed.

Lemma exact_int64 (f : listing -> Z) rows :
  (forall r, exact r = true -> in_int64 (Some (f r)) = true) ->
  forallb exact rows = true ->
  forallb in_int64 (map Some (map f rows)) = true.
Proof.
  intros Hf. induction rows as [|r rows IH]; [reflexivity|].
  cbn [forallb map]. intros H. apply andb_true_iff in H. destruct H as [Hr H].
  rewrite (Hf r Hr), (IH H). reflexivity.
Qed.

(** The data frame of exact rows holds the rows. *)
Lemma DataFrame_exact P rows :
  forallb exact rows = true -> DataFrame P rows = Ok rows.
Proof.
  intros Hex. unfold DataFrame.
  rewrite <- (map_map year Some), <- (map_map price_eur Some).
  rewrite (column_int64 P (map year rows)), (column_int64 P (map price_eur rows)).
  2:{ apply exact_int64; [|exact Hex]. intros r Hr. unfold exact in Hr.
      apply andb_true_iff in Hr. destruct Hr as [Hr _].
      apply andb_true_iff in Hr. tauto. }
  2:{ apply exact_int64; [|exact Hex]. intros r Hr. unfold exact in Hr.
      apply andb_true_iff in Hr. destruct Hr as [Hr _].
      apply andb_true_iff in Hr. tauto. }
  cbn [bind].
  destruct (column_exact P (map km rows)) as (f & -> & Hf).
  - clear -Hex. induction rows as [|r rows IH]; [reflexivity|].
    cbn [forallb map] in *. apply andb_true_iff in Hex. destruct Hex as [Hr Hex].
    rewrite (IH Hex), andb_true_r. unfold exact in Hr.
    apply andb_true_iff in Hr. destruct Hr as [_ Hk].
    destruct (km r) as [k|]; [|reflexivity]. cbn [in_int64].
    apply Z.leb_le in Hk. apply andb_true_iff. split; [apply Z.leb_le|apply Z.ltb_lt]; lia.
  - clear -Hex. induction rows as [|r rows IH]; [constructor|].
    cbn [forallb map] in *. apply andb_true_iff in Hex. destruct Hex as [Hr Hex].
    constructor; [|now apply IH]. unfold exact in Hr.
    apply andb_true_iff in Hr. destruct Hr as [_ Hk].
    destruct (km r) as [k|]; [|exact I]. now apply Z.leb_le in Hk.
  - cbn [bind]. f_equal. clear -Hf.
    induction rows as [|r rows IH]; [reflexivity|].
    cbn [map] in *. inversion Hf as [|? ? Hr Hrows]; subst.
    rewrite (IH Hrows), Hr. now destruct r.
Qed.

(** On exact rows the deduplicate-then-sort step leaves a dataset
    unchanged, rows and their order, when no two of its rows are equal and
    it is sorted by year, then price. *)
Lemma frame_of_clean_rows P rows :
  forallb exact rows = true ->
  NoDup rows -> Sorted (key_le row_key) rows -> run_scrape_frame P rows = Ok rows.
Proof.
  intros Hex Hnd Hs. unfold run_scrape_frame.
  rewrite (DataFrame_exact P rows Hex). cbn [bind].
  now rewrite deduplicated_sorted_fixed.
Qed.

(** * The properties on the example inputs *)

Lemma latin1_only_laws : UnicodeLaws latin1_only.
Proof. split; [discriminate|reflexivity]. Qed.

(** ** Year resolver *)

Lemma labeled_year_wins_witness :
  date_shortcut latin1_only (normalize ad_labeled_year) = Ok None
  /\ occurrences latin1_only (normalize ad_labeled_year)
     = Ok [(2019, str " Anno 2019. Moto in ottime");
           (2026, str "aranzia fino al 2026 ")]
  /\ labeled latin1_only (str " Anno 2019. Moto in ottime") = true
  /\ negative latin1_only (str " Anno 2019. Moto in ottime") = false
  /\ negative latin1_only (str "aranzia fino al 2026 ") = true
  /\ extract_year_from_text latin1_only ad_labeled_year = Ok (Some 2019).
Proof.
  repeat (split; [vm_compute; reflexivity|]).
  apply (labeled_year_wins latin1_only ad_labeled_year []
           2019 (str " Anno 2019. Moto in ottime")
           [(2026, str "aranzia fino al 2026 ")]);
    try (vm_compute; reflexivity).
  - left. vm_compute. reflexivity.
  - intros o [<-|[]]. right. vm_compute. reflexivity.
Defined.

(** C1, the defect: in [Anno 2019. Moto in ottime condizioni, garanzia
    fino al 03/2026] the year 2019 is the only labeled one and 2026 ends a
    warranty, in negative context, yet the resolver returns 2026: the
    month/year pattern [03/2026] answers before a label is looked for. *)
Theorem date_shortcut_overrides_label :
  occurrences latin1_only (normalize ad_warranty_date)
  = Ok [(2019, str " Anno 2019. Moto in ottime");
        (2026, str "nzia fino al 03/2026 ")]
  /\ labeled latin1_only (str " Anno 2019. Moto in ottime") = true
  /\ negative latin1_only (str " Anno 2019. Moto in ottime") = false
  /\ labeled latin1_only (str "nzia fino al 03/2026 ") = false
  /\ negative latin1_only (str "nzia fino al 03/2026 ") = true
  /\ extract_year_from_text latin1_only ad_warranty_date = Ok (Some 2026).
Proof. repeat split; vm_compute; reflexivity. Qed.

Lemma tie_prefers_smaller_year_witness :
  date_shortcut latin1_only (normalize ad_two_labels) = Ok None
  /\ candidates latin1_only (normalize ad_two_labels) = Ok [(2021, 10); (2019, 10)]
  /\ extract_year_from_text latin1_only ad_two_labels = Ok (Some 2019).
Proof.
  repeat (split; [vm_compute; reflexivity|]).
  apply (tie_prefers_smaller_year latin1_only ad_two_labels
           [(2021, 10); (2019, 10)] 2019 2021 10);
    try (vm_compute; reflexivity); try (cbn; tauto).
  - intros y' s' [H|[H|[]]]; injection H as <- <-; lia.
  - intros y' [H|[H|[]]]; injection H as <-; lia.
Defined.

(** C2 as stated fails: two bare years tie at the maximal score 1, and
    the resolver returns none of them. *)
Lemma weak_tie_unresolved :
  date_shortcut latin1_only (normalize ad_two_bare_years) = Ok None
  /\ candidates latin1_only (normalize ad_two_bare_years) = Ok [(2019, 1); (2020, 1)]
  /\ extract_year_from_text latin1_only ad_two_bare_years = Ok None.
Proof. repeat split; vm_compute; reflexivity. Qed.

Lemma years_outside_range_unresolved_witness :
  year_tokens latin1_only ad_old_registration = [Ok 1985]
  /\ found (DATE_PAT latin1_only) (normalize ad_old_registration) = true
  /\ extract_year_from_text latin1_only ad_old_registration = Ok None.
Proof.
  repeat (split; [vm_compute; reflexivity|]).
  apply (years_outside_range_unresolved latin1_only latin1_only_laws).
  vm_compute. reflexivity.
Defined.


(** C5 as stated fails: the year 2010 has a label term and a
    negative-context term in its window and gets no score; scored as the
    claim says it would be the candidate (2010, -5). *)
Lemma label_with_negative_context_dropped :
  occurrences latin1_only (normalize ad_label_and_warranty)
  = Ok [(2010, str " anno 2010 garanzia ")]
  /\ labeled latin1_only (str " anno 2010 garanzia ") = true
  /\ negative latin1_only (str " anno 2010 garanzia ") = true
  /\ candidates latin1_only (normalize ad_label_and_warranty) = Ok []
  /\ candidates_as_specified latin1_only (normalize ad_label_and_warranty)
     = Ok [(2010, -5)].
Proof. repeat split; vm_compute; reflexivity. Qed.

Lemma first_date_pattern_wins_witness :
  search (DATE_PAT latin1_only) (normalize ad_warranty_date)
  = Some {| m_start := 56; m_end := 63;
            m_groups := [(2%nat, (59%nat, 63%nat)); (1%nat, (56%nat, 58%nat))] |}
  /\ negative latin1_only (str "nzia fino al 03/2026 ") = true
  /\ extract_year_from_text latin1_only ad_warranty_date = Ok (Some 2026).
Proof.
  repeat (split; [vm_compute; reflexivity|]).
  apply (first_date_pattern_wins latin1_only ad_warranty_date
           {| m_start := 56; m_end := 63;
              m_groups := [(2%nat, (59%nat, 63%nat)); (1%nat, (56%nat, 58%nat))] |}
           2026);
    vm_compute; reflexivity.
Defined.

(** C6 as stated fails: the text has a month/year pattern with its year in
    range, [05/2020], but the first pattern, [03/1985], has not, and the
    resolver returns nothing. *)
Lemma later_date_pattern_ignored :
  date_years latin1_only ad_two_dates = [Ok 1985; Ok 2020]
  /\ in_year_range 1985 = false
  /\ in_year_range 2020 = true
  /\ extract_year_from_text latin1_only ad_two_dates = Ok None.
Proof. repeat split; vm_compute; reflexivity. Qed.

(** The results above do not depend on the tables beyond Latin-1. *)
Remark examples_any_tables (U : Unicode) :
  extract_year_from_text U ad_warranty_date = Ok (Some 2026)
  /\ extract_year_from_text U ad_two_bare_years = Ok None
  /\ candidates U (normalize ad_label_and_warranty) = Ok []
  /\ extract_year_from_text U ad_two_dates = Ok None.
Proof. repeat split; vm_compute; reflexivity. Qed.

(** ** Price *)

Lemma parse_price_examples_witness :
  euro_follows_number latin1_only (str "Prezzo su richiesta") = false
  /\ parse_price latin1_only (str "Prezzo su richiesta") = Ok None.
Proof.
  split; [vm_compute; reflexivity|].
  apply (proj1 (proj2 (proj2 (parse_price_examples latin1_only)))).
  vm_compute. reflexivity.
Defined.

(** ** Pagination *)

Lemma declared_pagination_witness :
  site_declaring honda_url tt [] = (Ok declaring_page, [honda_url])
  /\ declared_indices latin1_only (href_set declaring_page) [] = Ok [7; 2]
  /\ discover_pages latin1_only _ unit unit site_declaring no_sleep
       honda_url tt 5 tt None []
     = (Ok [honda_url;
            str "https://www.moto.it/moto-usate/honda/cbr-650-r/pagina-2";
            str "https://www.moto.it/moto-usate/honda/cbr-650-r/pagina-3";
            str "https://www.moto.it/moto-usate/honda/cbr-650-r/pagina-4";
            str "https://www.moto.it/moto-usate/honda/cbr-650-r/pagina-5"],
        [honda_url]).
Proof.
  repeat (split; [vm_compute; reflexivity|]).
  apply (proj1 (declared_pagination latin1_only _ unit unit site_declaring no_sleep
                  honda_url tt 5 tt None [] declaring_page [honda_url] [7; 2]
                  eq_refl eq_refl ltac:(discriminate))).
Defined.

(** C8 as stated fails: for a base URL that ends with a slash the first
    URL returned is not the base URL. *)
Lemma base_url_stripped :
  discover_pages latin1_only _ unit unit site_declaring no_sleep
    honda_url_slash tt 5 tt None []
  = (Ok [honda_url;
         str "https://www.moto.it/moto-usate/honda/cbr-650-r/pagina-2";
         str "https://www.moto.it/moto-usate/honda/cbr-650-r/pagina-3";
         str "https://www.moto.it/moto-usate/honda/cbr-650-r/pagina-4";
         str "https://www.moto.it/moto-usate/honda/cbr-650-r/pagina-5"],
     [honda_url_slash])
  /\ honda_url <> honda_url_slash.
Proof. split; [vm_compute; reflexivity|discriminate]. Qed.



(** An index of 4301 digits is not read: [int] raises [ValueError], the
    handler around the base page takes it and the pages are probed. *)
Remark long_index_probed :
  forallb (readable latin1_only) (href_set long_index_page) = false
  /\ declared_indices latin1_only (href_set long_index_page) [] = Raise ValueError
  /\ discover_pages latin1_only _ unit unit (site_of long_index_page) no_sleep
       honda_url tt 5 tt None []
     = (Ok [honda_url], [honda_url; page_url honda_url 2]).
Proof. split; [|split]; vm_compute; reflexivity. Qed.

(** A failure of a probe request that is no HTTP status error is not
    caught by the handler of the loop, which names [requests.HTTPError]:
    the discovery ends by it. *)
Remark probe_connection_error :
  discover_pages latin1_only _ unit unit (site_failing_on ConnectionError)
    no_sleep honda_url tt 3 tt None []
  = (Raise ConnectionError, [honda_url; page_url honda_url 2]).
Proof. vm_compute. reflexivity. Qed.

(** Neither do the results on the example sites. *)
Remark sites_any_tables (U : Unicode) :
  fst (discover_pages U _ unit unit site_declaring no_sleep
         honda_url_slash tt 5 tt None [])
  = Ok (honda_url :: map (page_url honda_url) [2; 3; 4; 5])
  /\ fst (discover_pages U _ unit unit (site_failing_on (HTTPError (Some 500)))
            no_sleep honda_url tt 3 tt None [])
     = Ok [honda_url; page_url honda_url 3]
  /\ fst (discover_pages U _ unit unit (site_failing_on ConnectionError)
            no_sleep honda_url tt 3 tt None [])
     = Raise ConnectionError.
Proof. split; [|split]; vm_compute; reflexivity. Qed.

(** ** Dataset *)

Lemma frame_of_clean_rows_witness :
  run_scrape_frame object_columns
    [row 2017 5200 None; row 2019 4900 (Some 8200);
     row 2019 4900 (Some 12000); row 2019 6100 None]
  = Ok [row 2017 5200 None; row 2019 4900 (Some 8200);
        row 2019 4900 (Some 12000); row 2019 6100 None].
Proof.
  apply frame_of_clean_rows.
  - reflexivity.
  - repeat constructor; cbn; intuition discriminate.
  - repeat constructor.
Defined.

(** C10, the defect: three ads that differ in the mileage alone give three
    rows, no two equal and in the order of the frame; the frame built from
    them has two.  One mileage is missing, so the column is float64: both
    2^53 + 1 and 2^53 are held as 2^53, and the second row is dropped as a
    duplicate of the first. *)
Theorem frame_merges_rows :
  fst (parse_page latin1_only _ unit (site_of km_page) no_boxes ads_between_bars
         basic_lower join_paths honda_url tt (str "Honda") (str "CBR 650 R")
         true None [])
  = Ok km_rows
  /\ NoDup km_rows
  /\ Sorted (key_le row_key) km_rows
  /\ (forall P : Pandas,
        run_scrape_frame P km_rows
        = Ok [ad_row 2019 12500 (Some 9007199254740992) "Milano (MI)";
              ad_row 2019 12500 None "Milano (MI)"])
  /\ forall P : Pandas,
       fst (run_scrape latin1_only _ unit unit (site_of km_page) no_sleep no_boxes
              ads_between_bars basic_lower join_paths P honda_cfg None None [])
       = Ok [ad_row 2019 12500 (Some 9007199254740992) "Milano (MI)";
             ad_row 2019 12500 None "Milano (MI)"].
Proof.
  split; [vm_compute; reflexivity|]. split; [|split; [|split]].
  - repeat constructor; cbn; intuition discriminate.
  - repeat constructor.
  - intros P. vm_compute. reflexivity.
  - intros P. vm_compute. reflexivity.
Qed.

(** * Further properties *)

(** ** Year resolver *)

Section ResolverFacts.

Variable U : Unicode.

(** The text of a group, from its offsets in the subject. *)
Lemma group_at (t : list Z) m i l mid rest :
  t = rev l ++ mid ++ rest ->
  lookup i (m_groups m) = Some (length l, (length mid + length l)%nat) ->
  group t m i = mid.
Proof.
  intros -> Hg. unfold group. rewrite Hg.
  rewrite skipn_app, skipn_all2 by (rewrite length_rev; lia).
  rewrite length_rev, Nat.sub_diag.
  replace (length mid + length l - length l)%nat with (length mid + 0)%nat by lia.
  cbn [skipn app]. rewrite firstn_app_2. cbn. apply app_nil_r.
Qed.

(** Group 2 of a match of [DATE_PAT] is a year token. *)
Lemma DATE_PAT_year t m :
  search (DATE_PAT U) t = Some m ->
  exists y1 y2 y3 y4, year_chars U y1 y2 y3 y4 /\ group t m 2 = [y1; y2; y3; y4].
Proof.
  intros E. apply search_from_sound in E. destruct E as (c & Hc & E).
  apply match_at_sound in E. destruct E as (c' & Hd & _).
  unfold DATE_PAT in Hd. rewrite Str_19, Str_20 in Hd.
  set (month := Alt _ _) in Hd. set (years := Alt _ _) in Hd. cbn [Cat den] in Hd.
  destruct Hd as (c1 & g1 & (_ & -> & ->) & c2 & g2 & (g3 & Hm & ->)
                  & c3 & g4 & Hs1 & c4 & g5 & Hsep & c5 & g6 & Hs2
                  & c6 & g7 & (g8 & Hy & ->) & _ & -> & Hgm).
  apply den_spans in Hm. destruct Hm as [m1 Hm].
  apply spans_subject in Hm.
  apply star_spaces in Hs1. destruct Hs1 as (_ & Hs1 & _).
  apply (den_spans (Chr _)) in Hsep. destruct Hsep as [m3 Hsep].
  apply spans_subject in Hsep.
  apply star_spaces in Hs2. destruct Hs2 as (-> & Hs2 & _).
  assert (Hsub : subject c5 = t).
  { rewrite Hs2, Hsep, Hs1, Hm, Hc. reflexivity. }
  assert (Hyc : exists y1 y2 y3 y4 rest,
             snd c5 = y1 :: y2 :: y3 :: y4 :: rest
             /\ c6 = (y4 :: y3 :: y2 :: y1 :: fst c5, rest)
             /\ year_chars U y1 y2 y3 y4).
  { destruct Hy as [Hy|Hy];
      [apply (year_alt_den U 50 48) in Hy | apply (year_alt_den U 49 57) in Hy]; auto;
      destruct Hy as (y1 & y2 & y3 & y4 & rest & Hs & -> & Hy' & _); eauto 10. }
  clear Hy. destruct Hyc as (y1 & y2 & y3 & y4 & rest & Hs & -> & Hy).
  exists y1, y2, y3, y4. split; [exact Hy|].
  apply (group_at t _ 2%nat (fst c5) [y1; y2; y3; y4] rest).
  - rewrite <- Hsub. unfold subject. now rewrite Hs.
  - rewrite Hgm. unfold pos. cbn [fst length lookup Nat.eqb]. reflexivity.
Qed.

(** Group 1 of a match that [finditer] reports for [YEAR_PAT] is a year
    token. *)
Lemma YEAR_PAT_year t m :
  In m (finditer (YEAR_PAT U) t) ->
  exists y1 y2 y3 y4, year_chars U y1 y2 y3 y4 /\ group t m 1 = [y1; y2; y3; y4].
Proof.
  intros H. apply finditer_from_sound in H. destruct H as (c & Hc & E).
  apply match_at_sound in E. destruct E as (c' & Hd & _).
  apply YEAR_PAT_den in Hd.
  destruct Hd as (y1 & y2 & y3 & y4 & rest & Hs & -> & Hy & _ & _ & Hg).
  exists y1, y2, y3, y4. split; [exact Hy|].
  apply (group_at t _ 1%nat (fst c) [y1; y2; y3; y4] rest).
  - assert (Ht : subject c = t) by (rewrite Hc; reflexivity).
    rewrite <- Ht. unfold subject. now rewrite Hs.
  - rewrite Hg. reflexivity.
Qed.

Lemma date_shortcut_returns t : exists r, date_shortcut U t = Ok r.
Proof.
  unfold date_shortcut.
  destruct (search (DATE_PAT U) t) as [m|] eqn:E; [|eauto].
  destruct (DATE_PAT_year t m E) as (y1 & y2 & y3 & y4 & Hy & ->).
  destruct (int_year U _ _ _ _ Hy) as [y ->]. cbn [bind].
  destruct (in_year_range y); eauto.
Qed.

Lemma occurrences_of_returns t ms :
  (forall m, In m ms -> In m (finditer (YEAR_PAT U) t)) ->
  exists occs, occurrences_of U t ms = Ok occs.
Proof.
  induction ms as [|m ms IH]; intros Hin; cbn [occurrences_of].
  - eauto.
  - destruct (YEAR_PAT_year t m (Hin m (or_introl eq_refl)))
      as (y1 & y2 & y3 & y4 & Hy & ->).
    destruct (int_year U _ _ _ _ Hy) as [y ->]. cbn [bind].
    destruct IH as [occs ->]; [intros m' H'; apply Hin; now right|].
    cbn [bind]. eauto.
Qed.

Lemma candidates_returns t : exists cands, candidates U t = Ok cands.
Proof.
  rewrite candidates_occurrences. unfold occurrences.
  destruct (occurrences_of_returns t (finditer (YEAR_PAT U) t)) as [occs ->]; [auto|].
  cbn [bind]. eauto.
Qed.

Lemma extract_year_ok txt :
  exists r, extract_year_from_text U txt = Ok r.
Proof.
  unfold extract_year_from_text. destruct txt as [|c txt]; [eauto|].
  destruct (date_shortcut_returns (normalize (c :: txt))) as [[y|] ->]; cbn [bind];
    [eauto|].
  destruct (candidates_returns (normalize (c :: txt))) as [cands ->]. cbn [bind].
  destruct cands; eauto.
Qed.

(** What [pick] returns is the year of a candidate. *)
Lemma pick_in cands y : pick cands = Some y -> exists s, In (y, s) cands /\ 1 < s.
Proof.
  unfold pick. destruct cands as [|c cands]; [discriminate|].
  destruct (sort_by_best sort_key (c :: cands)) as (b & rest & -> & Hb & _);
    [discriminate|].
  destruct b as [by_ bs]. destruct (bs <=? 1) eqn:E; [discriminate|].
  intros H. injection H as <-. exists bs. split; [exact Hb|lia].
Qed.

Lemma occurrences_of_in t ms occs y w :
  occurrences_of U t ms = Ok occs -> In (y, w) occs ->
  in_year_range y = true
  /\ exists m, In m ms /\ int U (group t m 1) = Ok y /\ w = window_of t m.
Proof.
  revert occs. induction ms as [|m ms IH]; cbn [occurrences_of]; intros occs Ho Hin.
  - injection Ho as <-. contradiction.
  - destruct (int U (group t m 1)) as [y0|e] eqn:Ei; [|discriminate].
    cbn [bind] in Ho.
    destruct (occurrences_of U t ms) as [rest|e]; [|discriminate].
    cbn [bind] in Ho. injection Ho as <-.
    destruct (in_year_range y0) eqn:Er.
    + destruct Hin as [H|Hin].
      * injection H as <- <-. split; [exact Er|]. exists m; auto with datatypes.
      * destruct (IH rest eq_refl Hin) as (Hr & m' & Hm' & Hi & Hw).
        split; [exact Hr|]. exists m'; auto with datatypes.
    + destruct (IH rest eq_refl Hin) as (Hr & m' & Hm' & Hi & Hw).
      split; [exact Hr|]. exists m'; auto with datatypes.
Qed.

Lemma scored_year o y s : In (y, s) (scored U o) -> y = fst o.
Proof. intros H. now apply scored_in in H. Qed.

(** The candidates are in-range year tokens. *)
Lemma candidates_in t cands y s :
  candidates U t = Ok cands -> In (y, s) cands ->
  in_year_range y = true
  /\ exists m, In m (finditer (YEAR_PAT U) t) /\ int U (group t m 1) = Ok y.
Proof.
  rewrite candidates_occurrences. unfold occurrences.
  destruct (occurrences_of U t (finditer (YEAR_PAT U) t)) as [occs|e] eqn:Eo;
    [|discriminate].
  cbn [bind]. intros H Hin. injection H as <-.
  apply in_flat_map in Hin. destruct Hin as ([y' w] & Ho & Hs).
  apply scored_year in Hs. cbn [fst] in Hs. subst y'.
  destruct (occurrences_of_in _ _ _ _ _ Eo Ho) as (Hr & m & Hm & Hi & _).
  eauto.
Qed.

Lemma extract_year_range txt y :
  extract_year_from_text U txt = Ok (Some y) -> YEAR_MIN <= y <= YEAR_MAX.
Proof.
  intros H.
  assert (Hr : in_year_range y = true).
  { unfold extract_year_from_text in H. destruct txt as [|c txt]; [discriminate|].
    unfold date_shortcut in H.
    destruct (search (DATE_PAT U) (normalize (c :: txt))) as [m|].
    - destruct (int U (group _ m 2)) as [y0|e]; [|discriminate]. cbn [bind] in H.
      destruct (in_year_range y0) eqn:Er; cbn [bind] in H.
      + now injection H as <-.
      + destruct (candidates U _) as [cands|e] eqn:Ec; [|discriminate].
        cbn [bind] in H. rewrite choice_is_pick in H. injection H as H.
        apply pick_in in H. destruct H as (s & Hin & _).
        now destruct (candidates_in _ _ _ _ Ec Hin).
    - cbn [bind] in H.
      destruct (candidates U _) as [cands|e] eqn:Ec; [|discriminate].
      cbn [bind] in H. rewrite choice_is_pick in H. injection H as H.
      apply pick_in in H. destruct H as (s & Hin & _).
      now destruct (candidates_in _ _ _ _ Ec Hin). }
  unfold in_year_range in Hr. lia.
Qed.

Hypothesis laws : UnicodeLaws U.

(** X3: a year that the resolver returns is a year token of the text. *)
Theorem extract_year_is_token txt y :
  extract_year_from_text U txt = Ok (Some y) -> In (Ok y) (year_tokens U txt).
Proof.
  intros H. unfold extract_year_from_text in H.
  destruct txt as [|c txt]; [discriminate|].
  set (t := normalize (c :: txt)) in *.
  assert (Hc : forall cands, candidates U t = Ok cands -> pick cands = Some y ->
                In (Ok y) (year_tokens U (c :: txt))).
  { intros cands Ec Hp. apply pick_in in Hp. destruct Hp as (s & Hin & _).
    destruct (candidates_in _ _ _ _ Ec Hin) as (_ & m & Hm & Hi).
    unfold year_tokens. fold t. rewrite <- Hi.
    exact (in_map (fun m => int U (group t m 1)) _ _ Hm). }
  unfold date_shortcut in H.
  destruct (search (DATE_PAT U) t) as [md|] eqn:E.
  - destruct (int U (group t md 2)) as [y0|e] eqn:Ei; [|discriminate].
    cbn [bind] in H. destruct (in_year_range y0) eqn:Er; cbn [bind] in H.
    + injection H as <-.
      apply search_from_sound in E. destruct E as (c0 & Hc0 & E).
      apply match_at_sound in E. destruct E as (c' & Hd & _ & _).
      apply (DATE_PAT_den U laws) in Hd.
      destruct Hd as (l & y1 & y2 & y3 & y4 & rest & Hsub & -> & Hy & Hl & Hr & Hg).
      rewrite Hc0 in Hsub. unfold subject in Hsub. cbn [fst snd rev app] in Hsub.
      rewrite (group_at t md 2%nat l [y1; y2; y3; y4] rest (eq_sym Hsub) Hg) in Ei.
      pose proof (finditer_year_found U laws y1 y2 y3 y4 rest Hy (rev l) [] 0%nat) as Hin.
      rewrite app_nil_r, rev_involutive in Hin.
      specialize (Hin Hl Hr (Nat.le_0_l _)).
      unfold year_tokens. fold t. rewrite <- Ei.
      replace [y1; y2; y3; y4] with (group t {| m_start := length l; m_end := 4 + length l;
          m_groups := [(1%nat, (length l, (4 + length l)%nat))] |} 1).
      * apply (in_map (fun m => int U (group t m 1))). unfold finditer.
        rewrite <- Hsub. exact Hin.
      * apply (group_at t _ 1%nat l [y1; y2; y3; y4] rest (eq_sym Hsub)). reflexivity.
    + destruct (candidates U t) as [cands|e] eqn:Ec; [|discriminate].
      cbn [bind] in H. rewrite choice_is_pick in H. injection H as H. eauto.
  - cbn [bind] in H.
    destruct (candidates U t) as [cands|e] eqn:Ec; [|discriminate].
    cbn [bind] in H. rewrite choice_is_pick in H. injection H as H. eauto.
Qed.

End ResolverFacts.

(** ** Cleaning the text *)

Lemma collapse_plain s : forall b, plain_spaces (collapse_spaces b s).
Proof.
  induction s as [|c s IH]; intros b x; cbn [collapse_spaces].
  - intros [].
  - destruct (is_space c) eqn:E.
    + destruct b; [apply IH|]. intros [<-|H]; [reflexivity|exact (IH _ _ H)].
    + intros [<-|H]; [congruence|exact (IH _ _ H)].
Qed.

Lemma collapse_after_space s c r : collapse_spaces true s = c :: r -> c <> 32.
Proof.
  induction s as [|x s IH]; cbn [collapse_spaces]; [discriminate|].
  destruct (is_space x) eqn:E; [exact IH|].
  intros H. injection H as <- _. intros ->. discriminate.
Qed.

Lemma collapse_no_double s : forall b, no_double_space (collapse_spaces b s).
Proof.
  induction s as [|c s IH]; intros b l1 l2; cbn [collapse_spaces].
  - destruct l1; discriminate.
  - destruct (is_space c) eqn:E.
    + destruct b; [apply IH|].
      destruct l1 as [|x l1]; cbn [app]; intros H.
      * injection H as H2. now apply collapse_after_space in H2.
      * injection H as _ H2. now apply IH in H2.
    + destruct l1 as [|x l1]; cbn [app]; intros H.
      * injection H as H1 _. subst c. discriminate.
      * injection H as _ H2. now apply IH in H2.
Qed.

Lemma lstrip_suffix r : exists p, r = p ++ lstrip r.
Proof.
  induction r as [|c r [p IH]]; cbn [lstrip].
  - now exists [].
  - destruct (is_space c); [|now exists []].
    exists (c :: p). cbn. now rewrite <- IH.
Qed.

Lemma lstrip_first r : no_space_first (lstrip r).
Proof.
  induction r as [|c r IH]; cbn [lstrip]; intros x r'.
  - discriminate.
  - destruct (is_space c) eqn:E; [apply IH|].
    intros H. now injection H as <- _.
Qed.

Lemma lstrip_fixed r : no_space_first r -> lstrip r = r.
Proof.
  destruct r as [|c r]; [reflexivity|]. intros H. cbn [lstrip].
  now rewrite (H c r eq_refl).
Qed.

Lemma plain_suffix p r : plain_spaces (p ++ r) -> plain_spaces r.
Proof. intros H c Hc. apply H. apply in_or_app. now right. Qed.

Lemma no_double_suffix p r : no_double_space (p ++ r) -> no_double_space r.
Proof. intros H l1 l2 ->. apply (H (p ++ l1) l2). now rewrite <- app_assoc. Qed.

Lemma plain_rev r : plain_spaces r -> plain_spaces (rev r).
Proof. intros H c Hc. apply H. now apply in_rev. Qed.

Lemma no_double_rev r : no_double_space r -> no_double_space (rev r).
Proof.
  intros H l1 l2 E. apply (H (rev l2) (rev l1)).
  rewrite <- (rev_involutive r), E, rev_app_distr. cbn [rev].
  now rewrite <- !app_assoc.
Qed.

Lemma first_rev_last r : no_space_first (rev r) <-> no_space_last r.
Proof.
  split.
  - intros H c r' ->. apply (H c (rev r')). now rewrite rev_app_distr.
  - intros H c r' E. apply (H c (rev r')).
    rewrite <- (rev_involutive r), E. reflexivity.
Qed.

(** A suffix of a text with no space first and none last... *)
Lemma no_space_last_suffix p r : r <> [] -> no_space_last (p ++ r) -> no_space_last r.
Proof. intros _ H c r' ->. apply (H c (p ++ r')). now rewrite <- app_assoc. Qed.

Lemma strip_clean t : plain_spaces t -> no_double_space t -> clean (strip t).
Proof.
  intros Hp Hd. unfold strip.
  destruct (lstrip_suffix t) as [p1 E1].
  set (t1 := lstrip t) in *.
  assert (Hp1 : plain_spaces t1) by (rewrite E1 in Hp; now apply plain_suffix in Hp).
  assert (Hd1 : no_double_space t1) by (rewrite E1 in Hd; now apply no_double_suffix in Hd).
  destruct (lstrip_suffix (rev t1)) as [p2 E2].
  set (t2 := lstrip (rev t1)) in *.
  assert (Hp2 : plain_spaces t2).
  { apply plain_rev in Hp1. rewrite E2 in Hp1. now apply plain_suffix in Hp1. }
  assert (Hd2 : no_double_space t2).
  { apply no_double_rev in Hd1. rewrite E2 in Hd1. now apply no_double_suffix in Hd1. }
  split; [now apply plain_rev|]. split; [now apply no_double_rev|]. split.
  - (* first character: the first of [t1], unless all is stripped *)
    intros c r' E.
    assert (Hrev : rev t1 = p2 ++ t2) by exact E2.
    apply (f_equal (@rev Z)) in Hrev. rewrite rev_involutive, rev_app_distr, E in Hrev.
    cbn [app] in Hrev. apply (lstrip_first t c (r' ++ rev p2)). exact Hrev.
  - apply first_rev_last. rewrite rev_involutive. apply lstrip_first.
Qed.

(** X5: whatever its argument, [text_clean] gives a clean text. *)
Theorem text_clean_clean s : clean (text_clean s).
Proof.
  unfold text_clean. apply strip_clean; [apply collapse_plain|apply collapse_no_double].
Qed.

Lemma collapse_fixed r : forall b,
  plain_spaces r -> no_double_space r ->
  (b = true -> forall r', r <> 32 :: r') ->
  collapse_spaces b r = r.
Proof.
  induction r as [|c r IH]; intros b Hp Hd Hb; cbn [collapse_spaces]; [reflexivity|].
  assert (Hp' : plain_spaces r) by (intros x Hx; apply Hp; now right).
  assert (Hd' : no_double_space r).
  { intros l1 l2 ->. now apply (Hd (c :: l1) l2). }
  destruct (is_space c) eqn:E.
  - assert (c = 32) as -> by (apply Hp; [now left|exact E]).
    destruct b; [exfalso; now apply (Hb eq_refl r)|].
    f_equal. apply IH; auto. intros _ r' ->. now apply (Hd [] r').
  - f_equal. apply IH; auto. discriminate.
Qed.

Lemma clean_fixed r : clean r -> text_clean (Some r) = r.
Proof.
  intros (Hp & Hd & Hf & Hl). unfold text_clean.
  rewrite (collapse_fixed r false Hp Hd) by discriminate.
  unfold strip. rewrite (lstrip_fixed r Hf).
  rewrite lstrip_fixed; [apply rev_involutive|].
  now apply first_rev_last.
Qed.

(** X6: cleaning a cleaned text changes nothing. *)
Theorem text_clean_idempotent s : text_clean (Some (text_clean s)) = text_clean s.
Proof. apply clean_fixed, strip_clean; [apply collapse_plain|apply collapse_no_double]. Qed.

(** ** Mileage, location, folder name *)

Lemma collapse_keeps_word y :
  Forall (fun c => is_space c = false) y -> forall b, collapse_spaces b y = y.
Proof.
  induction 1 as [|c y Hc Hy IH]; intros b; cbn [collapse_spaces]; [reflexivity|].
  rewrite Hc. f_equal. apply IH.
Qed.

Lemma collapse_app_word x y :
  Forall (fun c => is_space c = false) y ->
  forall b, collapse_spaces b (x ++ y) = collapse_spaces b x ++ y.
Proof.
  intros Hy. induction x as [|c x IH]; intros b; cbn [app collapse_spaces].
  - now apply collapse_keeps_word.
  - destruct (is_space c); [destruct b|]; cbn [app]; now rewrite IH.
Qed.

Lemma lstrip_app_word t c y :
  is_space c = false -> exists t', lstrip (t ++ c :: y) = t' ++ c :: y.
Proof.
  intros Hc. induction t as [|x t [t' IH]]; cbn [app lstrip].
  - rewrite Hc. now exists [].
  - destruct (is_space x); [eauto|]. now exists (x :: t).
Qed.

(** A last word of a text stays its last word when the text is cleaned. *)
Lemma text_clean_keeps_word x y :
  y <> [] -> Forall (fun c => is_space c = false) y ->
  exists z, text_clean (Some (x ++ y)) = z ++ y.
Proof.
  intros Hne Hy. unfold text_clean, strip. rewrite (collapse_app_word _ _ Hy).
  destruct y as [|c y]; [congruence|].
  destruct (lstrip_app_word (collapse_spaces false x) c y) as [t' ->];
    [now inversion Hy|].
  exists t'. rewrite rev_app_distr.
  assert (Hl : no_space_first (rev (c :: y) ++ rev t')).
  { intros a r' E.
    assert (Ha : In a (rev (c :: y))).
    { destruct (rev (c :: y)) as [|a' ry] eqn:Er.
      - apply (f_equal (@length Z)) in Er. rewrite length_rev in Er. discriminate.
      - cbn [app] in E. injection E as <- _. now left. }
    apply in_rev in Ha. rewrite Forall_forall in Hy. now apply Hy. }
  rewrite (lstrip_fixed _ Hl), rev_app_distr, !rev_involutive. reflexivity.
Qed.

Lemma den_group_free r :
  group_free r = true -> forall c g c' g', den r c g c' g' -> g' = g.
Proof.
  induction r as [|p|a IHa b IHb|a IHa b IHb|a IHa|w| | |i a IHa];
    cbn [group_free den]; intros Hf c g c' g' H.
  - now destruct H.
  - now destruct H as (x & s & _ & _ & _ & ->).
  - apply andb_true_iff in Hf. destruct Hf as [Ha Hb].
    destruct H as (c1 & g1 & H1 & H2).
    rewrite (IHb Hb _ _ _ _ H2). now apply (IHa Ha _ _ _ _ H1).
  - apply andb_true_iff in Hf. destruct Hf as [Ha Hb].
    destruct H as [H|H]; [now apply (IHa Ha _ _ _ _ H)|now apply (IHb Hb _ _ _ _ H)].
  - induction H as [|ca ga cb gb cc gc Hd Hs IH]; [reflexivity|].
    rewrite IH. now apply (IHa Hf _ _ _ _ Hd).
  - now destruct H as (_ & _ & ->).
  - now destruct H as (_ & _ & ->).
  - now destruct H as (_ & _ & ->).
  - discriminate.
Qed.

Section HelperFacts.

Variable U : Unicode.

Lemma StrI_Km : StrI U "Km" = Seq (Chr (ci_eq U 75)) (Chr (ci_eq U 109)).
Proof. reflexivity. Qed.

Lemma parse_km_ok txt : exists r, parse_km U txt = Ok r.
Proof.
  unfold parse_km.
  destruct (search (KM_PAT U) txt) as [m|]; [|eauto].
  destruct (int U _) as [v|e] eqn:E; cbn [bind try_except_ValueError]; [eauto|].
  apply int_raises in E. subst e. eauto.
Qed.

(** The number read from digits whose values are not negative is not
    negative. *)
Lemma digits_value_nonneg :
  (forall c v, uni_decimal U c = Some v -> 0 <= v) ->
  forall s acc v, 0 <= acc -> digits_value U acc s = Some v -> 0 <= v.
Proof.
  intros Hu. induction s as [|c s IH]; cbn [digits_value]; intros acc v Ha H.
  - injection H as <-. exact Ha.
  - destruct (digit_value U c) as [d|] eqn:Ed; [|discriminate].
    apply IH in H; [exact H|].
    assert (0 <= d); [|lia].
    unfold digit_value in Ed. destruct (known c).
    + destruct (between 48 57 c) eqn:Eb; [|discriminate].
      injection Ed as <-. unfold between in Eb. lia.
    + eapply Hu; eauto.
Qed.

Lemma int_nonneg :
  (forall c v, uni_decimal U c = Some v -> 0 <= v) ->
  forall s v, int U s = Ok v -> 0 <= v.
Proof.
  intros Hu s v. unfold int. destruct s as [|c s]; [discriminate|].
  destruct (digits_value U 0 (c :: s)) as [v'|] eqn:E; [|discriminate].
  destruct (_ <? _)%nat; [discriminate|].
  intros H. injection H as <-. eapply digits_value_nonneg; eauto. lia.
Qed.

Lemma int_has_digit s v : int U s = Ok v -> exists d, In d s /\ is_digit U d = true.
Proof.
  unfold int. destruct s as [|c s]; [discriminate|].
  cbn [digits_value]. destruct (digit_value U c) as [d|] eqn:E; [|discriminate].
  intros _. exists c. split; [now left|]. unfold is_digit. now rewrite E.
Qed.

Lemma in_remove c x s : In x (remove c s) -> In x s.
Proof. unfold remove. intros H. now apply filter_In in H. Qed.

(** Where [KM_PAT] matches: at the letters [km], in either case, and its
    group lies behind them. *)
Lemma KM_PAT_den c g c' g' :
  den (KM_PAT U) c g c' g' ->
  exists k m rest pre cg mid,
    snd c = k :: m :: rest
    /\ ci_eq U 75 k = true /\ ci_eq U 109 m = true
    /\ spans (m :: k :: fst c, rest) cg pre /\ spans cg c' mid
    /\ g' = (1%nat, (pos cg, pos c')) :: g.
Proof.
  unfold KM_PAT. rewrite StrI_Km. cbn [Cat].
  set (colon := Opt _). set (gap := Star (Chr _)). set (run := Plus _).
  set (spaces := Star Sp). cbn [den].
  intros (c1 & g1 & (c0 & g0 & (k & s0 & Hk & Hck & -> & ->)
                     & (m & rest & Hm & Hcm & -> & ->))
          & c2 & g2 & Hs & c3 & g3 & Hcolon & c4 & g4 & Hgap & g5 & Hrun & ->).
  cbn [snd fst] in Hm. subst s0.
  rewrite (den_group_free run eq_refl _ _ _ _ Hrun).
  rewrite (den_group_free gap eq_refl _ _ _ _ Hgap).
  rewrite (den_group_free colon eq_refl _ _ _ _ Hcolon).
  rewrite (den_group_free spaces eq_refl _ _ _ _ Hs).
  apply den_spans in Hs. destruct Hs as [p1 Hs].
  apply den_spans in Hcolon. destruct Hcolon as [p2 Hcolon].
  apply den_spans in Hgap. destruct Hgap as [p3 Hgap].
  apply den_spans in Hrun. destruct Hrun as [mid Hrun].
  exists k, m, rest, (p1 ++ p2 ++ p3), c4, mid.
  repeat split; auto.
  - destruct (spans_trans _ _ _ _ _ Hs (spans_trans _ _ _ _ _ Hcolon Hgap)) as [H _].
    exact H.
  - destruct (spans_trans _ _ _ _ _ Hs (spans_trans _ _ _ _ _ Hcolon Hgap)) as [_ H].
    exact H.
  - apply Hrun.
  - apply Hrun.
Qed.

(** X8: a mileage is returned only when the text holds the letters [km], in
    either case ([ci_eq U 75] is the letter K, [ci_eq U 109] the letter m),
    with a digit somewhere behind them; it is not negative when no digit of
    the tables has a negative value. *)
Theorem parse_km_some txt v :
  (forall c d, uni_decimal U c = Some d -> 0 <= d) ->
  parse_km U txt = Ok (Some v) ->
  0 <= v
  /\ exists before k m behind d,
       txt = before ++ k :: m :: behind
       /\ ci_eq U 75 k = true /\ ci_eq U 109 m = true
       /\ In d behind /\ is_digit U d = true.
Proof.
  intros Hu. unfold parse_km.
  destruct (search (KM_PAT U) txt) as [mt|] eqn:E; [|discriminate].
  destruct (int U _) as [v'|e] eqn:Ei; cbn [bind try_except_ValueError].
  - intros H. injection H as <-. split; [eapply int_nonneg; eauto|].
    apply int_has_digit in Ei. destruct Ei as (d & Hd & Hdig).
    apply in_remove, in_remove in Hd.
    apply search_from_sound in E. destruct E as (c & Hc & E).
    apply match_at_sound in E. destruct E as (c' & Hden & _).
    apply KM_PAT_den in Hden.
    destruct Hden as (k & m & rest & pre & cg & mid & Hs & Hk & Hm & Hpre & Hmid & Hg).
    assert (Hsub : subject cg = txt).
    { rewrite (spans_subject _ _ _ Hpre). unfold subject. cbn [fst snd rev].
      rewrite <- !app_assoc. cbn [app]. rewrite <- Hs. fold (subject c).
      rewrite Hc. reflexivity. }
    assert (Hgrp : group txt mt 1 = mid).
    { unfold group. rewrite Hg. cbn [lookup Nat.eqb]. rewrite <- Hsub.
      now apply spans_slice. }
    rewrite Hgrp in Hd.
    exists (rev (fst c)), k, m, rest, d. repeat split; auto.
    + assert (Ht : subject c = txt) by (rewrite Hc; reflexivity).
      rewrite <- Ht. unfold subject. now rewrite Hs.
    + destruct Hpre as [Hp _]. destruct Hmid as [Hmd _]. cbn [snd] in Hp.
      rewrite Hp, Hmd. apply in_or_app. right. apply in_or_app. now left.
  - destruct e; discriminate.
Qed.

Lemma Str_paren_open : Lit 40 = Chr (Z.eqb 40).
Proof. reflexivity. Qed.

(** X10: a location that is returned is a clean text and ends with two
    capital letters in parentheses. *)
Theorem parse_location_some txt loc :
  parse_location txt = Some loc ->
  clean loc
  /\ exists place a b,
       loc = place ++ [40; a; b; 41]
       /\ between 65 90 a = true /\ between 65 90 b = true.
Proof.
  unfold parse_location.
  destruct (search LOCATION_PAT txt) as [mt|] eqn:E; [|discriminate].
  intros H. injection H as <-. split; [apply strip_clean; [apply collapse_plain|apply collapse_no_double]|].
  apply search_from_sound in E. destruct E as (c & Hc & E).
  apply match_at_sound in E. destruct E as (c' & Hden & Hst & Hen).
  unfold LOCATION_PAT in Hden. cbn [Cat] in Hden.
  set (place := Grp _ _) in Hden. set (spaces := Star Sp) in Hden.
  unfold Lit in Hden. cbn [den] in Hden.
  destruct Hden as (c1 & g1 & Hplace & c2 & g2 & Hsp
                    & c3 & g3 & (x1 & s1 & Hx1 & Ex1 & -> & ->)
                    & c4 & g4 & (a & s2 & Ha & Ea & -> & ->)
                    & c5 & g5 & (b & s3 & Hb & Eb & -> & ->)
                    & (x4 & s4 & Hx4 & Ex4 & -> & _)).
  cbn [fst snd] in *. subst s1 s2 s3.
  apply Z.eqb_eq in Ex1, Ex4. subst x1 x4.
  apply den_spans in Hplace. destruct Hplace as [p1 Hplace].
  apply den_spans in Hsp. destruct Hsp as [p2 Hsp].
  pose proof (spans_trans _ _ _ _ _ Hplace Hsp) as H12.
  assert (Hall : spans c (41 :: b :: a :: 40 :: fst c2, s4) ((p1 ++ p2) ++ [40; a; b; 41])).
  { apply (spans_trans _ _ _ _ _ H12). split; cbn [fst snd rev app]; auto. }
  assert (Hg0 : group0 txt mt = (p1 ++ p2) ++ [40; a; b; 41]).
  { unfold group0. rewrite Hst, Hen.
    assert (Ht : subject c = txt) by (rewrite Hc; reflexivity).
    rewrite <- Ht. now apply spans_slice. }
  rewrite Hg0.
  destruct (text_clean_keeps_word (p1 ++ p2) [40; a; b; 41]) as [z Hz];
    [discriminate| |].
  - unfold between in Ea, Eb.
    repeat constructor; unfold is_space, between; lia.
  - exists z, a, b. auto.
Qed.

(** X11: the folder name is not empty and holds word characters, hyphens,
    white space, full stops and underscores only: no slash, no backslash. *)
Theorem safe_folder_name_safe model :
  safe_folder_name U model <> []
  /\ Forall (fun c => safe_char U c = true) (safe_folder_name U model)
  /\ ~ In 47 (safe_folder_name U model)
  /\ ~ In 92 (safe_folder_name U model).
Proof.
  assert (Hsafe : Forall (fun c => safe_char U c = true) (safe_folder_name U model)).
  { unfold safe_folder_name.
    destruct (map _ (strip model)) as [|c s] eqn:E; [repeat constructor|].
    rewrite <- E. apply Forall_forall.
    intros x Hx. apply in_map_iff in Hx. destruct Hx as (y & <- & _).
    destruct (safe_char U y) eqn:Ey; [exact Ey|reflexivity]. }
  split; [|split; [exact Hsafe|]].
  - unfold safe_folder_name. destruct (map _ (strip model)); discriminate.
  - rewrite Forall_forall in Hsafe.
    split; intros H; apply Hsafe in H; discriminate.
Qed.

End HelperFacts.

(** ** The page URLs *)

Lemma uint_text_inj d : forall d', uint_text d = uint_text d' -> d = d'.
Proof.
  induction d as [|d IH|d IH|d IH|d IH|d IH|d IH|d IH|d IH|d IH|d IH];
    intros [|d'|d'|d'|d'|d'|d'|d'|d'|d'|d']; cbn [uint_text]; intros H;
    try discriminate; try reflexivity;
    injection H as H; f_equal; now apply IH.
Qed.

Lemma str_of_int_inj i j : 0 <= i -> 0 <= j -> str_of_int i = str_of_int j -> i = j.
Proof.
  intros Hi Hj H. unfold str_of_int in H.
  apply uint_text_inj, DecimalN.Unsigned.to_uint_inj in H. lia.
Qed.

Lemma page_url_inj base i j : 0 <= i -> 0 <= j -> page_url base i = page_url base j -> i = j.
Proof.
  intros Hi Hj H. unfold page_url in H.
  apply app_inv_head, app_inv_head in H. now apply str_of_int_inj.
Qed.

Lemma page_url_longer base i : page_url base i <> rstrip_slash base.
Proof.
  unfold page_url. intros H. apply (f_equal (@length Z)) in H.
  rewrite !length_app in H.
  assert (0 < length (str "/pagina-"))%nat by (vm_compute; lia). lia.
Qed.

Lemma range_sorted a n :
  StronglySorted Z.lt (map (fun k => a + Z.of_nat k) (seq 0 n)).
Proof.
  assert (H : forall s, StronglySorted Z.lt (map (fun k => a + Z.of_nat k) (seq s n))).
  { induction n as [|n IH]; intros s; cbn [seq map]; constructor; [apply IH|].
    apply Forall_forall. intros x Hx. apply in_map_iff in Hx.
    destruct Hx as (k & <- & Hk). apply in_seq in Hk. lia. }
  apply H.
Qed.

Lemma range_bounds a b i : In i (range a b) -> a <= i < b.
Proof.
  unfold range. intros H. apply in_map_iff in H. destruct H as (k & <- & Hk).
  apply in_seq in Hk. lia.
Qed.

Lemma sorted_lt_length l : forall a b,
  StronglySorted Z.lt l -> Forall (fun i => a <= i <= b) l ->
  Z.of_nat (length l) <= Z.max 0 (b - a + 1).
Proof.
  induction l as [|h t IH]; intros a b Hs Hb; cbn [length]; [lia|].
  inversion Hs as [|? ? Hs' Hh]; subst. inversion Hb as [|? ? Hhb Htb]; subst.
  assert (Ht : Forall (fun i => a + 1 <= i <= b) t).
  { rewrite Forall_forall in *. intros x Hx. specialize (Hh x Hx).
    specialize (Htb x Hx). lia. }
  specialize (IH (a + 1) b Hs' Ht). lia.
Qed.

Lemma sorted_lt_NoDup l : StronglySorted Z.lt l -> NoDup l.
Proof.
  induction 1 as [|h t Hs IH Hh]; constructor; [|exact IH].
  intros Hin. rewrite Forall_forall in Hh. specialize (Hh h Hin). lia.
Qed.

Lemma NoDup_map_in {A B} (f : A -> B) l :
  (forall x y, In x l -> In y l -> f x = f y -> x = y) ->
  NoDup l -> NoDup (map f l).
Proof.
  intros Hf. induction 1 as [|x l Hx Hl IH]; cbn [map]; constructor.
  - intros Hin. apply in_map_iff in Hin. destruct Hin as (y & Hy & Hin).
    apply Hf in Hy; [subst y; contradiction|now right|now left].
  - apply IH. intros a b Ha Hb. apply Hf; now right.
Qed.

Section DiscoveryFacts.

Variable U : Unicode.
Variable World Headers Delay : Type.
Variable fetch : list Z -> Headers -> World -> result soup * World.
Variable sleep : Delay -> World -> World.

Local Abbreviation probe' := (probe World Headers Delay fetch sleep).
Local Abbreviation discover_pages' := (discover_pages U World Headers Delay fetch sleep).

(** The pages that the probing adds are pages of indices still to probe,
    in their order. *)
Lemma probe_adds base hs delay : forall todo pages w pages' w',
  StronglySorted Z.lt todo ->
  probe' base hs delay todo pages w = (Ok pages', w') ->
  exists idxs, pages' = pages ++ map (page_url base) idxs
               /\ StronglySorted Z.lt idxs /\ incl idxs todo.
Proof.
  induction todo as [|i todo IH]; intros pages w pages' w' Hs H; cbn [probe] in H.
  - injection H as <- _. exists []. rewrite app_nil_r.
    repeat split; [constructor|apply incl_nil_l].
  - inversion Hs as [|? ? Hs' Hi]; subst.
    assert (Hskip : forall w1,
              probe' base hs delay todo pages w1 = (Ok pages', w') ->
              exists idxs, pages' = pages ++ map (page_url base) idxs
                           /\ StronglySorted Z.lt idxs /\ incl idxs (i :: todo)).
    { intros w1 H1. destruct (IH _ _ _ _ Hs' H1) as (idxs & -> & Hss & Hin).
      exists idxs. repeat split; auto using incl_tl. }
    assert (Hstop : forall (w1 : World),
              (Ok pages, w1) = (Ok pages', w') ->
              exists idxs, pages' = pages ++ map (page_url base) idxs
                           /\ StronglySorted Z.lt idxs /\ incl idxs (i :: todo)).
    { intros w1 H1. injection H1 as <- _. exists []. rewrite app_nil_r.
      repeat split; [constructor|apply incl_nil_l]. }
    destruct (fetch (page_url base i) hs w) as [[s|e] w1].
    + destruct (has_listings s); cbn [negb] in H; [|eauto].
      destruct (IH _ _ _ _ Hs' H) as (idxs & -> & Hss & Hin).
      exists (i :: idxs). rewrite <- app_assoc. cbn [map app].
      repeat split.
      * constructor; [exact Hss|]. rewrite Forall_forall in *. auto.
      * intros x [<-|Hx]; [now left|right; auto].
    + destruct e as [|code| | |]; try discriminate.
      destruct code as [[|p|p]|]; eauto.
      destruct (Pos.eq_dec p 404) as [->|Hp]; [eauto|].
      do 9 (destruct p as [p|p|]; eauto).
Qed.

(** X18: the page list of a discovery that returns: the stripped base URL,
    then page URLs of strictly increasing indices between 2 and the cap; no
    URL twice; at most max(1, cap) URLs. *)
Theorem discover_pages_shape base hs max_pages delay log w pages w' :
  discover_pages' base hs max_pages delay log w = (Ok pages, w') ->
  (exists idxs,
     pages = rstrip_slash base :: map (page_url base) idxs
     /\ StronglySorted Z.lt idxs
     /\ Forall (fun i => 2 <= i <= max_pages) idxs)
  /\ NoDup pages
  /\ Z.of_nat (length pages) <= Z.max 1 max_pages.
Proof.
  intros H.
  assert (Hshape : exists idxs,
            pages = rstrip_slash base :: map (page_url base) idxs
            /\ StronglySorted Z.lt idxs
            /\ Forall (fun i => 2 <= i <= max_pages) idxs).
  { assert (Hprobe : forall w1,
              probe' base hs delay (range 2 (max_pages + 1)) [rstrip_slash base] w1
              = (Ok pages, w') ->
              exists idxs,
                pages = rstrip_slash base :: map (page_url base) idxs
                /\ StronglySorted Z.lt idxs
                /\ Forall (fun i => 2 <= i <= max_pages) idxs).
    { intros w1 H1. apply probe_adds in H1; [|apply range_sorted].
      destruct H1 as (idxs & -> & Hs & Hin). exists idxs. repeat split; auto.
      apply Forall_forall. intros x Hx. apply Hin, range_bounds in Hx. lia. }
    unfold discover_pages in H.
    destruct (fetch base hs w) as [[s|e] w1]; [|eauto].
    destruct (declared_indices U (href_set s) []) as [nums|e]; [|eauto].
    destruct nums as [|n nums]; [eauto|].
    injection H as <- _. cbn [app].
    exists (range 2 (Z.min (maximum (n :: nums)) max_pages + 1)).
    repeat split; [apply range_sorted|].
    apply Forall_forall. intros x Hx. apply range_bounds in Hx. lia. }
  split; [exact Hshape|].
  destruct Hshape as (idxs & -> & Hs & Hb). split.
  - constructor.
    + intros Hin. apply in_map_iff in Hin. destruct Hin as (i & Hi & _).
      now apply page_url_longer in Hi.
    + apply NoDup_map_in.
      * intros i j Hi Hj. rewrite Forall_forall in Hb.
        specialize (Hb i Hi) as Hbi. specialize (Hb j Hj) as Hbj.
        apply page_url_inj; lia.
      * now apply sorted_lt_NoDup.
  - cbn [length]. rewrite length_map.
    pose proof (sorted_lt_length idxs 2 max_pages Hs Hb). lia.
Qed.


End DiscoveryFacts.

(** ** Detail page, page and run *)

Section DetailFacts.

Variable U : Unicode.

(** Group 1 of a match of [DETAIL_PAT] is a year token. *)
Lemma DETAIL_PAT_year t m :
  search (DETAIL_PAT U) t = Some m ->
  exists y1 y2 y3 y4, year_chars U y1 y2 y3 y4 /\ group t m 1 = [y1; y2; y3; y4].
Proof.
  intros E. apply search_from_sound in E. destruct E as (c & Hc & E).
  apply match_at_sound in E. destruct E as (c' & Hd & _).
  unfold DETAIL_PAT in Hd. rewrite Str_19, Str_20 in Hd. cbn [Cat] in Hd.
  set (labels := Any _) in Hd. set (gap := UpTo _ _) in Hd.
  set (years := Alt _ _) in Hd. cbn [den] in Hd.
  destruct Hd as (c1 & g1 & Hl & c2 & g2 & Hg & g3 & Hy & Hgm).
  apply den_spans in Hl. destruct Hl as [m1 Hl]. apply spans_subject in Hl.
  apply den_spans in Hg. destruct Hg as [m2 Hg]. apply spans_subject in Hg.
  assert (Hsub : subject c2 = t) by (rewrite Hg, Hl, Hc; reflexivity).
  assert (Hyc : exists y1 y2 y3 y4 rest,
             snd c2 = y1 :: y2 :: y3 :: y4 :: rest
             /\ c' = (y4 :: y3 :: y2 :: y1 :: fst c2, rest)
             /\ year_chars U y1 y2 y3 y4).
  { destruct Hy as [Hy|Hy];
      [apply (year_alt_den U 49 57) in Hy | apply (year_alt_den U 50 48) in Hy]; auto;
      destruct Hy as (y1 & y2 & y3 & y4 & rest & Hs & -> & Hy' & _); eauto 10. }
  clear Hy. destruct Hyc as (y1 & y2 & y3 & y4 & rest & Hs & -> & Hy).
  exists y1, y2, y3, y4. split; [exact Hy|].
  apply (group_at t _ 1%nat (fst c2) [y1; y2; y3; y4] rest).
  - rewrite <- Hsub. unfold subject. now rewrite Hs.
  - rewrite Hgm. unfold pos. cbn [fst length lookup Nat.eqb]. reflexivity.
Qed.

Lemma year_in_box_returns t : exists r, year_in_box U t = Ok r.
Proof.
  unfold year_in_box.
  assert (H1 : exists r,
            match search (DETAIL_PAT U) t with
            | Some m => y <- int U (group t m 1);;
                        Ok (if in_year_range y then Some y else None)
            | None => Ok None
            end = Ok r).
  { destruct (search (DETAIL_PAT U) t) as [m|] eqn:E; [|eauto].
    destruct (DETAIL_PAT_year t m E) as (y1 & y2 & y3 & y4 & Hy & ->).
    destruct (int_year U _ _ _ _ Hy) as [y ->]. cbn [bind]. eauto. }
  destruct H1 as [[y|] ->]; cbn [bind]; [eauto|].
  destruct (date_shortcut_returns U t) as [[y|] ->]; cbn [bind]; [eauto|].
  destruct (extract_year_ok U t) as [[y|] ->]; cbn [bind]; [|eauto].
  destruct (y =? 0); eauto.
Qed.

Lemma date_shortcut_in_range t y :
  date_shortcut U t = Ok (Some y) -> in_year_range y = true.
Proof.
  unfold date_shortcut. destruct (search (DATE_PAT U) t) as [m|]; [|discriminate].
  destruct (int U _) as [y0|e]; [|discriminate]. cbn [bind].
  destruct (in_year_range y0) eqn:E; [|discriminate]. now intros H; injection H as <-.
Qed.

Lemma year_in_box_in_range t y :
  year_in_box U t = Ok (Some y) -> in_year_range y = true.
Proof.
  unfold year_in_box.
  destruct (search (DETAIL_PAT U) t) as [m|].
  - destruct (int U _) as [y0|e]; [|discriminate]. cbn [bind].
    destruct (in_year_range y0) eqn:E; [now intros H; injection H as <-|].
    revert E. generalize y0. clear. intros _ _.
    destruct (date_shortcut U t) as [[y1|]|e] eqn:Ed; cbn [bind]; try discriminate.
    + intros H. injection H as <-. now apply date_shortcut_in_range in Ed.
    + destruct (extract_year_from_text U t) as [[y3|]|e] eqn:Ee; cbn [bind];
        try discriminate.
      destruct (y3 =? 0); [discriminate|]. intros H. injection H as <-.
      apply extract_year_range in Ee. unfold in_year_range. lia.
  - cbn [bind].
    destruct (date_shortcut U t) as [[y1|]|e] eqn:Ed; cbn [bind]; try discriminate.
    + intros H. injection H as <-. now apply date_shortcut_in_range in Ed.
    + destruct (extract_year_from_text U t) as [[y3|]|e] eqn:Ee; cbn [bind];
        try discriminate.
      destruct (y3 =? 0); [discriminate|]. intros H. injection H as <-.
      apply extract_year_range in Ee. unfold in_year_range. lia.
Qed.

Lemma year_in_boxes_returns boxes : exists r, year_in_boxes U boxes = Ok r.
Proof.
  induction boxes as [|b boxes IH]; cbn [year_in_boxes]; [eauto|].
  destruct (year_in_box_returns (normalize b)) as [[y|] ->]; cbn [bind]; eauto.
Qed.

Lemma year_in_boxes_in_range boxes y :
  year_in_boxes U boxes = Ok (Some y) -> in_year_range y = true.
Proof.
  induction boxes as [|b boxes IH]; cbn [year_in_boxes]; [discriminate|].
  destruct (year_in_box U (normalize b)) as [[y0|]|e] eqn:E; cbn [bind];
    try discriminate; [|exact IH].
  intros H. injection H as <-. now apply year_in_box_in_range in E.
Qed.

Variable World Headers Delay : Type.
Variable fetch : list Z -> Headers -> World -> result soup * World.
Variable sleep : Delay -> World -> World.
Variable select_boxes : soup -> list (list Z).
Variable select_fragments : soup -> list fragment.
Variable str_lower : list Z -> list Z.
Variable urljoin : list Z -> list Z -> result (list Z).
Variable P : Pandas.

Local Abbreviation detail_year := (parse_year_from_detail U World Headers fetch select_boxes).
Local Abbreviation parse_nodes' :=
  (parse_nodes U World Headers fetch select_boxes str_lower urljoin).
Local Abbreviation parse_page' :=
  (parse_page U World Headers fetch select_boxes select_fragments str_lower urljoin).
Local Abbreviation run_scrape' :=
  (run_scrape U World Headers Delay fetch sleep select_boxes select_fragments
              str_lower urljoin P).
Local Abbreviation scrape_pages' :=
  (scrape_pages U World Headers Delay fetch sleep select_boxes select_fragments
                str_lower urljoin).

Lemma detail_year_ok url hs w :
  exists r, fst (detail_year url hs w) = Ok r.
Proof.
  unfold parse_year_from_detail.
  destruct (fetch url hs w) as [[s|e] w1]; cbn [fst]; [|eauto].
  apply year_in_boxes_returns.
Qed.

Lemma detail_year_range url hs w y :
  fst (detail_year url hs w) = Ok (Some y) -> YEAR_MIN <= y <= YEAR_MAX.
Proof.
  unfold parse_year_from_detail.
  destruct (fetch url hs w) as [[s|e] w1]; cbn [fst]; [|discriminate].
  intros H. apply year_in_boxes_in_range in H. unfold in_year_range in H. lia.
Qed.

(** The first link of [node] is a path on which [urljoin] raises [e]. *)
Lemma link_raises node e :
  extract_primary_link urljoin node = Raise e ->
  exists href,
    first_href (frag_anchors node) = Some href
    /\ starts_with (str "/") href = true
    /\ urljoin (str "https://www.moto.it") href = Raise e.
Proof.
  unfold extract_primary_link.
  destruct (first_href (frag_anchors node)) as [href|]; [|discriminate].
  destruct (starts_with (str "/") href) eqn:Es; [|discriminate].
  destruct (urljoin (str "https://www.moto.it") href) as [joined|e0] eqn:E;
    cbn [bind]; [discriminate|].
  intros H. injection H as <-. exists href. auto.
Qed.

(** The loop over the nodes ends with records of the nodes, or by the
    exception of [urljoin] on the link of one of them. *)
Lemma parse_nodes_spec url hs b m verify log :
  forall nodes items w,
    (exists items' w',
       parse_nodes' url hs b m verify log nodes items w = (Ok (items ++ items'), w')
       /\ Forall (record_of U b m nodes) items')
    \/ (exists node e w',
          parse_nodes' url hs b m verify log nodes items w = (Raise e, w')
          /\ In node nodes
          /\ extract_primary_link urljoin node = Raise e).
Proof.
  induction nodes as [|node nodes IH]; intros items w; cbn [parse_nodes].
  - left. exists [], w. rewrite app_nil_r. split; [reflexivity|constructor].
  - set (goal := fun r : result (list listing) * World =>
           (exists items' w',
              r = (Ok (items ++ items'), w')
              /\ Forall (record_of U b m (node :: nodes)) items')
           \/ (exists node0 e w',
                 r = (Raise e, w') /\ In node0 (node :: nodes)
                 /\ extract_primary_link urljoin node0 = Raise e)).
    assert (Hnext : forall items0 w0 extra,
              items0 = items ++ extra ->
              Forall (record_of U b m (node :: nodes)) extra ->
              goal (parse_nodes' url hs b m verify log nodes items0 w0)).
    { intros items0 w0 extra -> Hextra.
      destruct (IH (items ++ extra) w0)
        as [(items' & w' & Hr & Hall)|(node0 & e & w' & Hr & Hin & He)].
      - left. exists (extra ++ items'), w'. rewrite app_assoc.
        split; [exact Hr|].
        apply Forall_app. split; [exact Hextra|].
        eapply Forall_impl; [|exact Hall].
        intros it (Hb & Hm & Hy & n & Hn & Hrest).
        split; [exact Hb|]. split; [exact Hm|]. split; [exact Hy|].
        exists n. split; [now right|exact Hrest].
      - right. exists node0, e, w'. split; [exact Hr|]. split; [now right|exact He]. }
    assert (Hskip : forall w0,
              goal (parse_nodes' url hs b m verify log nodes items w0)).
    { intros w0. apply (Hnext items w0 []); [now rewrite app_nil_r|constructor]. }
    fold (goal (parse_nodes' url hs b m verify log (node :: nodes) items w)).
    cbn [parse_nodes].
    set (txt := text_clean (Some (frag_text node))).
    destruct (nonempty b && _); [apply Hskip|].
    destruct (nonempty m && _); [apply Hskip|].
    destruct (parse_price_returns U txt) as [[price|] Hp]; rewrite Hp; [|apply Hskip].
    destruct (extract_year_ok U txt) as [card_year Hc]. rewrite Hc.
    destruct (extract_primary_link urljoin node) as [link|e] eqn:El.
    2:{ right. exists node, e, w. split; [reflexivity|]. split; [now left|exact El]. }
    set (href := match link with
                 | Some h => if nonempty h then h else url
                 | None => url
                 end).
    destruct (parse_km_ok U txt) as [k Hk].
    assert (Hadd : forall y origin w0, YEAR_MIN <= y <= YEAR_MAX ->
              goal (parse_nodes' url hs b m verify log nodes
                      (items ++ [{| brand := b; model := m; year := y;
                                    price_eur := price; km := k;
                                    location := parse_location txt;
                                    source_url := href |}])
                      (say World log (Accepted y origin price href) w0))).
    { intros y origin w0 Hy. eapply Hnext; [reflexivity|].
      constructor; [|constructor].
      split; [reflexivity|]. split; [reflexivity|]. split; [exact Hy|].
      exists node. split; [now left|]. cbn. fold txt. auto. }
    destruct card_year as [y|].
    + cbn [bind]. rewrite Hk. apply Hadd.
      apply extract_year_range in Hc. exact Hc.
    + destruct (verify && nonempty href).
      * destruct (detail_year href hs w) as [y2 w2] eqn:Ed.
        destruct (detail_year_ok href hs w) as [r Hr].
        rewrite Ed in Hr. cbn [fst] in Hr. subst y2. cbn [bind].
        destruct r as [y|]; [|apply Hskip].
        rewrite Hk. apply Hadd.
        apply (detail_year_range href hs w). now rewrite Ed.
      * apply Hskip.
Qed.

Lemma parse_page_spec url hs b m verify log w :
  match fetch url hs w with
  | (Raise e, w1) => parse_page' url hs b m verify log w = (Raise e, w1)
  | (Ok s, w1) =>
      (exists items w',
         parse_page' url hs b m verify log w = (Ok items, w')
         /\ Forall (record_of U b m (listing_blocks select_fragments s)) items)
      \/ (exists node e w',
            parse_page' url hs b m verify log w = (Raise e, w')
            /\ In node (listing_blocks select_fragments s)
            /\ extract_primary_link urljoin node = Raise e)
  end.
Proof.
  unfold parse_page. destruct (fetch url hs w) as [[s|e] w1]; [|reflexivity].
  destruct (parse_nodes_spec url hs b m verify log
              (listing_blocks select_fragments s) [] w1)
    as [(items & w' & H & Hall)|(node & e & w' & H & Hin & He)].
  - left. exists items, w'. split; [exact H|exact Hall].
  - right. exists node, e, w'. auto.
Qed.

(** X14: [parse_page] raises when the request of the page raises, with its
    exception; otherwise it raises only what [urljoin] raises on the first
    link of a node of the page, a path.  No text of a node and no failure
    of a detail request makes it raise. *)
Theorem parse_page_raises url hs b m verify log w e w' :
  (fetch url hs w = (Raise e, w') ->
   parse_page U World Headers fetch select_boxes select_fragments str_lower urljoin
     url hs b m verify log w = (Raise e, w'))
  /\ (parse_page U World Headers fetch select_boxes select_fragments str_lower urljoin
        url hs b m verify log w = (Raise e, w') ->
      fetch url hs w = (Raise e, w')
      \/ exists s w1 node href,
           fetch url hs w = (Ok s, w1)
           /\ In node (listing_blocks select_fragments s)
           /\ first_href (frag_anchors node) = Some href
           /\ starts_with (str "/") href = true
           /\ urljoin (str "https://www.moto.it") href = Raise e).
Proof.
  pose proof (parse_page_spec url hs b m verify log w) as H.
  destruct (fetch url hs w) as [[s|e0] w1].
  - split; [discriminate|]. intros Hr. right.
    destruct H as [(items & w2 & H & _)|(node & e1 & w2 & H & Hin & He)];
      rewrite H in Hr; [discriminate|].
    injection Hr as -> _.
    destruct (link_raises node e He) as (href & Hf & Hs & Hj).
    exists s, w1, node, href. auto.
  - rewrite H. split; intros Hx; injection Hx as -> ->; [|left]; reflexivity.
Qed.

(** X15: every record of a page has the brand and the model asked for and
    a year between 1990 and 2035, and holds the price, the mileage and the
    location read from the clean text of one node of the page. *)
Theorem parse_page_records url hs b m verify log w items w' :
  parse_page' url hs b m verify log w = (Ok items, w') ->
  exists s w1,
    fetch url hs w = (Ok s, w1)
    /\ Forall (record_of U b m (listing_blocks select_fragments s)) items.
Proof.
  intros Hp. pose proof (parse_page_spec url hs b m verify log w) as H.
  destruct (fetch url hs w) as [[s|e0] w1].
  - destruct H as [(items0 & w2 & H & Hall)|(node & e & w2 & H & _)];
      rewrite H in Hp; [|discriminate].
    injection Hp as <- _. eauto.
  - rewrite H in Hp. discriminate.
Qed.

Lemma scrape_pages_rows cfg pcb log total : forall pages idx rows w rows' w',
  Forall (row_of cfg) rows ->
  scrape_pages' cfg pcb log total idx pages rows w = (Ok rows', w') ->
  Forall (row_of cfg) rows'.
Proof.
  induction pages as [|p pages IH]; intros idx rows w rows' w' Hrows H;
    cbn [scrape_pages] in H.
  - now injection H as <- _.
  - set (w1 := say World log (PageStart idx total p) w) in *.
    pose proof (parse_page_spec p (headers cfg) (cfg_brand cfg) (cfg_model cfg)
                  (verify_detail_year cfg) log w1) as Hp.
    destruct (fetch p (headers cfg) w1) as [[s|e0] w2].
    + destruct Hp as [(items & w3 & Hp & Hall)|(node & e & w3 & Hp & _)];
        rewrite Hp in H; [|discriminate].
      apply IH in H; [exact H|]. apply Forall_app. split; [exact Hrows|].
      eapply Forall_impl; [|exact Hall].
      intros it (Hb & Hm & Hy & _). now repeat split.
    + rewrite Hp in H. discriminate.
Qed.

Lemma drop_duplicates_from_in rows : forall seen r,
  In r (drop_duplicates_from seen rows) <-> In r rows /\ ~ In r seen.
Proof.
  induction rows as [|x rows IH]; intros seen r; cbn [drop_duplicates_from].
  - cbn. tauto.
  - destruct (in_dec listing_eq_dec x seen) as [Hin|Hout].
    + rewrite IH. cbn [In]. split; [tauto|].
      intros [[<-|H] Hn]; [contradiction|tauto].
    + cbn [In]. rewrite IH. cbn [In].
      destruct (listing_eq_dec x r) as [<-|Hne]; [tauto|]. tauto.
Qed.

Lemma deduplicated_sorted_in df r : In r (deduplicated_sorted df) <-> In r df.
Proof.
  rewrite deduplicated_sorted_sorts. unfold sort_values, drop_duplicates.
  rewrite sort_by_in, drop_duplicates_from_in. cbn. tauto.
Qed.

(** The columns leave the brand, the model and a year of the range as
    they are. *)
Lemma DataFrame_rows (cfg : ScrapeConfig Headers Delay) rows df :
  Forall (row_of cfg) rows -> DataFrame P rows = Ok df -> Forall (row_of cfg) df.
Proof.
  intros Hrows. unfold DataFrame.
  rewrite <- (map_map year Some), (column_int64 P (map year rows)).
  2:{ clear -Hrows. induction Hrows as [|r rows (_ & _ & Hy) _ IH]; [reflexivity|].
      cbn [map forallb]. rewrite IH, andb_true_r. unfold YEAR_MIN, YEAR_MAX in Hy.
      cbn [in_int64]. apply andb_true_iff.
      split; [apply Z.leb_le|apply Z.ltb_lt]; lia. }
  cbn [bind].
  destruct (column P (map (fun r => Some (price_eur r)) rows)) as [in_price|e];
    cbn [bind]; [|discriminate].
  destruct (column P (map km rows)) as [in_km|e]; cbn [bind]; [|discriminate].
  intros H. injection H as <-.
  apply Forall_map. eapply Forall_impl; [|exact Hrows].
  intros r (Hb & Hm & Hy). split; [exact Hb|]. split; [exact Hm|exact Hy].
Qed.

(** X16: the frame of a run that returns has no two equal rows, is in the
    order of the years, then of the prices, and every row has the brand and
    the model of the configuration and a year between 1990 and 2035. *)
Theorem run_scrape_frame_rows cfg pcb log w df w' :
  run_scrape' cfg pcb log w = (Ok df, w') ->
  NoDup df /\ Sorted (key_le row_key) df /\ Forall (row_of cfg) df.
Proof.
  unfold run_scrape.
  destruct (discover_pages _ _ _ _ _ _ _ _ _ _ _ _) as [[pages|e] w1]; [|discriminate].
  destruct (scrape_pages' cfg pcb log _ 1 pages [] w1) as [[rows|e] w2] eqn:E;
    [|discriminate].
  unfold run_scrape_frame.
  destruct (DataFrame P rows) as [held|e] eqn:Ef; cbn [bind]; [|discriminate].
  intros H. injection H as <- _.
  destruct (deduplicated_sorted_clean held) as [Hnd Hs].
  split; [exact Hnd|]. split; [exact Hs|].
  apply scrape_pages_rows in E; [|constructor].
  pose proof (DataFrame_rows cfg rows held E Ef) as Hheld.
  apply Forall_forall. intros r Hr.
  apply (proj1 (deduplicated_sorted_in held r)) in Hr.
  rewrite Forall_forall in Hheld. exact (Hheld r Hr).
Qed.

End DetailFacts.

(** X17: of exact rows, whose numbers every column holds as they are, the
    frame holds the rows it is built from, each once, in the order of the
    years, then of the prices. *)
Theorem run_scrape_frame_keeps P rows :
  forallb exact rows = true ->
  exists df,
    run_scrape_frame P rows = Ok df
    /\ NoDup df
    /\ Sorted (key_le row_key) df
    /\ forall r, In r df <-> In r rows.
Proof.
  intros Hex. exists (deduplicated_sorted rows).
  unfold run_scrape_frame. rewrite (DataFrame_exact P rows Hex). cbn [bind].
  destruct (deduplicated_sorted_clean rows) as [Hnd Hs].
  split; [reflexivity|]. split; [exact Hnd|]. split; [exact Hs|].
  intros r. apply deduplicated_sorted_in.
Qed.

Section MoreResolverFacts.

Variable U : Unicode.


(** X9: a price is returned only when a currency marker follows a number in
    the text; it is not negative when no digit of the tables has a negative
    value. *)
Theorem parse_price_some txt v :
  (forall c d, uni_decimal U c = Some d -> 0 <= d) ->
  parse_price U txt = Ok (Some v) ->
  0 <= v /\ euro_follows_number U txt = true.
Proof.
  intros Hu H. split.
  - unfold parse_price in H.
    destruct (search (PRICE_PAT U) txt) as [m|]; [|discriminate].
    destruct (int U _) as [v'|e] eqn:Ei; cbn [bind try_except_ValueError] in H.
    + injection H as <-. eapply int_nonneg; eauto.
    + destruct e; discriminate.
  - destruct (euro_follows_number U txt) eqn:E; [reflexivity|].
    rewrite (parse_price_no_marker U txt E) in H. discriminate.
Qed.

End MoreResolverFacts.

(** ** The properties as the sources state them *)

(** X1: the resolver raises on no text: what it passes to [int] is a year
    token. *)
Theorem extract_year_from_text_returns (U : Unicode) (txt : list Z) :
  exists r, extract_year_from_text U txt = Ok r.
Proof. destruct (extract_year_ok U txt) as [r Hr]. exists r. exact Hr. Qed.

(** X2: a year that the resolver returns lies between 1990 and 2035. *)
Theorem extract_year_in_range (U : Unicode) (txt : list Z) (y : Z) :
  extract_year_from_text U txt = Ok (Some y) -> YEAR_MIN <= y <= YEAR_MAX.
Proof. intros H. apply (extract_year_range U txt). exact H. Qed.

(** X7: [parse_km] raises on no text: the [ValueError] of [int] on a run
    without digits is caught. *)
Theorem parse_km_returns (U : Unicode) (txt : list Z) :
  exists r, parse_km U txt = Ok r.
Proof. destruct (parse_km_ok U txt) as [r Hr]. exists r. exact Hr. Qed.

(** X12: the detail lookup raises for no page and no failure of the
    request. *)
Theorem parse_year_from_detail_returns (U : Unicode) (World Headers : Type)
    (fetch : list Z -> Headers -> World -> result soup * World)
    (select_boxes : soup -> list (list Z)) url hs w :
  exists r, fst (parse_year_from_detail U World Headers fetch select_boxes url hs w) = Ok r.
Proof.
  destruct (detail_year_ok U World Headers fetch select_boxes url hs w) as [r Hr].
  exists r. exact Hr.
Qed.

(** X13: a year from the detail page lies between 1990 and 2035. *)
Theorem parse_year_from_detail_in_range (U : Unicode) (World Headers : Type)
    (fetch : list Z -> Headers -> World -> result soup * World)
    (select_boxes : soup -> list (list Z)) url hs w y :
  fst (parse_year_from_detail U World Headers fetch select_boxes url hs w) = Ok (Some y) ->
  YEAR_MIN <= y <= YEAR_MAX.
Proof.
  intros H. apply (detail_year_range U World Headers fetch select_boxes url hs w).
  exact H.
Qed.

(** ** On the example inputs *)

Lemma no_negative_digit : forall c d, uni_decimal latin1_only c = Some d -> 0 <= d.
Proof. intros c d H. discriminate H. Qed.

Lemma extract_year_in_range_witness :
  extract_year_from_text latin1_only ad_labeled_year = Ok (Some 2019)
  /\ YEAR_MIN <= 2019 <= YEAR_MAX.
Proof.
  split; [vm_compute; reflexivity|].
  apply (extract_year_in_range latin1_only ad_labeled_year 2019).
  vm_compute. reflexivity.
Defined.

Lemma extract_year_is_token_witness :
  extract_year_from_text latin1_only ad_warranty_date = Ok (Some 2026)
  /\ year_tokens latin1_only ad_warranty_date = [Ok 2019; Ok 2026]
  /\ In (Ok 2026) (year_tokens latin1_only ad_warranty_date).
Proof.
  split; [vm_compute; reflexivity|]. split; [vm_compute; reflexivity|].
  apply (extract_year_is_token latin1_only latin1_only_laws ad_warranty_date 2026).
  vm_compute. reflexivity.
Defined.


Lemma parse_km_some_witness :
  parse_km latin1_only ad_honda = Ok (Some 8200)
  /\ 0 <= 8200
  /\ exists before k m behind d,
       ad_honda = before ++ k :: m :: behind
       /\ ci_eq latin1_only 75 k = true /\ ci_eq latin1_only 109 m = true
       /\ In d behind /\ is_digit latin1_only d = true.
Proof.
  split; [vm_compute; reflexivity|].
  apply (parse_km_some latin1_only ad_honda 8200 no_negative_digit).
  vm_compute. reflexivity.
Defined.

Lemma parse_price_some_witness :
  parse_price latin1_only ad_honda = Ok (Some 12500)
  /\ 0 <= 12500
  /\ euro_follows_number latin1_only ad_honda = true.
Proof.
  split; [vm_compute; reflexivity|].
  apply (parse_price_some latin1_only ad_honda 12500 no_negative_digit).
  vm_compute. reflexivity.
Defined.

Lemma parse_location_some_witness :
  parse_location ad_honda = Some (str "Milano (MI)")
  /\ clean (str "Milano (MI)")
  /\ exists place a b,
       str "Milano (MI)" = place ++ [40; a; b; 41]
       /\ between 65 90 a = true /\ between 65 90 b = true.
Proof.
  split; [vm_compute; reflexivity|].
  apply (parse_location_some ad_honda (str "Milano (MI)")).
  vm_compute. reflexivity.
Defined.

Lemma parse_year_from_detail_in_range_witness :
  parse_year_from_detail latin1_only _ unit site_detail no_boxes honda_url tt []
  = (Ok (Some 2018), [honda_url])
  /\ YEAR_MIN <= 2018 <= YEAR_MAX.
Proof.
  split; [vm_compute; reflexivity|].
  apply (parse_year_from_detail_in_range latin1_only _ unit site_detail no_boxes
           honda_url tt [] 2018).
  vm_compute. reflexivity.
Defined.

Lemma parse_page_records_witness :
  parse_page latin1_only _ unit site_one_page no_boxes no_fragments basic_lower
    join_paths honda_url tt (str "Honda") (str "CBR 650 R") true None []
  = (Ok [honda_row], [honda_url])
  /\ exists s w1,
       site_one_page honda_url tt [] = (Ok s, w1)
       /\ Forall (record_of latin1_only (str "Honda") (str "CBR 650 R")
                    (listing_blocks no_fragments s)) [honda_row].
Proof.
  split; [vm_compute; reflexivity|].
  apply (parse_page_records latin1_only _ unit site_one_page no_boxes no_fragments
           basic_lower join_paths honda_url tt (str "Honda") (str "CBR 650 R")
           true None [] [honda_row] [honda_url]).
  vm_compute. reflexivity.
Defined.

(** A link on which [urljoin] raises ends [parse_page] by that
    exception. *)
Remark bracket_link_raises :
  parse_page latin1_only _ unit (site_of bracket_page) no_boxes no_fragments
    basic_lower strict_join honda_url tt (str "Honda") (str "CBR 650 R") true None []
  = (Raise ValueError, [honda_url]).
Proof. vm_compute. reflexivity. Qed.

Lemma run_scrape_frame_rows_witness :
  run_scrape latin1_only _ unit unit (site_of ads_page) no_sleep no_boxes
    ads_between_bars basic_lower join_paths object_columns honda_cfg None None []
  = (Ok [ad_row 2019 11000 None "Torino (TO)";
         ad_row 2019 12500 (Some 8200) "Milano (MI)";
         ad_row 2021 9000 (Some 9007199254740992) "Roma (RM)"],
     [honda_url; page_url honda_url 2; honda_url])
  /\ NoDup [ad_row 2019 11000 None "Torino (TO)";
            ad_row 2019 12500 (Some 8200) "Milano (MI)";
            ad_row 2021 9000 (Some 9007199254740992) "Roma (RM)"]
  /\ Sorted (key_le row_key)
       [ad_row 2019 11000 None "Torino (TO)";
        ad_row 2019 12500 (Some 8200) "Milano (MI)";
        ad_row 2021 9000 (Some 9007199254740992) "Roma (RM)"]
  /\ Forall (row_of honda_cfg)
       [ad_row 2019 11000 None "Torino (TO)";
        ad_row 2019 12500 (Some 8200) "Milano (MI)";
        ad_row 2021 9000 (Some 9007199254740992) "Roma (RM)"].
Proof.
  split; [vm_compute; reflexivity|].
  apply (run_scrape_frame_rows latin1_only _ unit unit (site_of ads_page) no_sleep
           no_boxes ads_between_bars basic_lower join_paths object_columns
           honda_cfg None None []
           [ad_row 2019 11000 None "Torino (TO)";
            ad_row 2019 12500 (Some 8200) "Milano (MI)";
            ad_row 2021 9000 (Some 9007199254740992) "Roma (RM)"]
           [honda_url; page_url honda_url 2; honda_url]).
  vm_compute. reflexivity.
Defined.

Lemma run_scrape_frame_keeps_witness :
  forallb exact [row 2019 6100 None; row 2017 5200 (Some 8200);
                 row 2019 6100 None; row 2019 4900 (Some 12000)] = true
  /\ run_scrape_frame object_columns
       [row 2019 6100 None; row 2017 5200 (Some 8200);
        row 2019 6100 None; row 2019 4900 (Some 12000)]
     = Ok [row 2017 5200 (Some 8200); row 2019 4900 (Some 12000);
           row 2019 6100 None]
  /\ exists df,
       run_scrape_frame object_columns
         [row 2019 6100 None; row 2017 5200 (Some 8200);
          row 2019 6100 None; row 2019 4900 (Some 12000)]
       = Ok df
       /\ NoDup df
       /\ Sorted (key_le row_key) df
       /\ forall r,
            In r df
            <-> In r [row 2019 6100 None; row 2017 5200 (Some 8200);
                      row 2019 6100 None; row 2019 4900 (Some 12000)].
Proof.
  split; [reflexivity|]. split; [vm_compute; reflexivity|].
  apply (run_scrape_frame_keeps object_columns
           [row 2019 6100 None; row 2017 5200 (Some 8200);
            row 2019 6100 None; row 2019 4900 (Some 12000)]).
  reflexivity.
Defined.

Lemma discover_pages_shape_witness :
  discover_pages latin1_only _ unit unit site_declaring no_sleep
    honda_url_slash tt 4 tt None []
  = (Ok (honda_url :: map (page_url honda_url_slash) [2; 3; 4]), [honda_url_slash])
  /\ (exists idxs,
        honda_url :: map (page_url honda_url_slash) [2; 3; 4]
        = rstrip_slash honda_url_slash :: map (page_url honda_url_slash) idxs
        /\ StronglySorted Z.lt idxs
        /\ Forall (fun i => 2 <= i <= 4) idxs)
  /\ NoDup (honda_url :: map (page_url honda_url_slash) [2; 3; 4])
  /\ Z.of_nat (length (honda_url :: map (page_url honda_url_slash) [2; 3; 4]))
     <= Z.max 1 4.
Proof.
  split; [vm_compute; reflexivity|].
  apply (discover_pages_shape latin1_only _ unit unit site_declaring no_sleep
           honda_url_slash tt 4 tt None []
           (honda_url :: map (page_url honda_url_slash) [2; 3; 4])
           [honda_url_slash]).
  vm_compute. reflexivity.
Defined.

